(** * Marlowe in Go: the translator's scanner and the JSON form of the
      contract types

    A shallow embedding of [v1/translator/scanner.go] and of the contract,
    action and value types of package [language], followed by the properties
    that the specification states about them. *)

From Stdlib Require Import ZArith List String Ascii Bool Lia.
From Stdlib Require Import Decimal DecimalString DecimalPos DecimalZ.
From Stdlib Require Import Sorting.Sorted.
Import ListNotations.
Open Scope Z_scope.
Set Warnings "-register-all".

(* ================================================================== *)
(** * Part I: definitions *)
(* ================================================================== *)

(** ** Runes and Go strings *)

(** A Go [rune] is a Unicode code point.  The scanner only ever sees the runes
    that [bufio.Reader.ReadRune] decodes from its input, so the input is
    modelled as the list of those runes. *)
Definition rune := Z.

(** A Go string built by [str += string(rune)] is the UTF-8 encoding of the
    appended runes; it is kept here as the list of these runes. *)
Definition gostring := list rune.

Definition rune_of_ascii (a : ascii) : rune := Z.of_N (N_of_ascii a).

(** The runes of an ASCII literal, to write inputs and token values. *)
Fixpoint runes (s : string) : gostring :=
  match s with
  | EmptyString => []
  | String a s' => rune_of_ascii a :: runes s'
  end.

(** ** The character classes of package [unicode]

    [unicode.IsSpace], [unicode.IsDigit], [unicode.IsLetter] and
    [unicode.IsPunct] test the White_Space property and the general categories
    Nd, L and P.  Every white-space code point has category Z or Cc, so no rune
    satisfies two of the four predicates: a rune has one class. *)
Inductive RuneClass : Type := Space | Digit | Letter | Punct | Other.

(** The ASCII range, as in the Latin-1 property table of package [unicode]:
    tab to carriage return and the blank are spaces; the currency, mathematical
    and modifier symbols [$ + < = > ^ ` | ~] are not punctuation. *)
Definition asciiClass (r : rune) : RuneClass :=
  if (r =? 32) || ((9 <=? r) && (r <=? 13)) then Space
  else if (48 <=? r) && (r <=? 57) then Digit
  else if ((65 <=? r) && (r <=? 90)) || ((97 <=? r) && (r <=? 122)) then Letter
  else if existsb (Z.eqb r)
            [33; 34; 35; 37; 38; 39; 40; 41; 42; 44; 45; 46; 47;
             58; 59; 63; 64; 91; 92; 93; 95; 123; 125] then Punct
  else Other.

Module Translator.

(** *** Tokens and positions ([scanner.go], lines 26-84) *)

Inductive TokenType : Type :=
| EOF | INVALID | KEYWORD | STRING | INT
| PARENS_L | PARENS_R | SQUARE_L | SQUARE_R | COMMA.

Definition TokenType_eqb (a b : TokenType) : bool :=
  match a, b with
  | EOF, EOF | INVALID, INVALID | KEYWORD, KEYWORD | STRING, STRING
  | INT, INT | PARENS_L, PARENS_L | PARENS_R, PARENS_R
  | SQUARE_L, SQUARE_L | SQUARE_R, SQUARE_R | COMMA, COMMA => true
  | _, _ => false
  end.

Record Position : Type := mkPosition { Line : Z; Column : Z }.

Record Token : Type := mkToken
  { Type_ : TokenType; Value : gostring; Position_ : Position }.

(** The zero value of [Position], which a composite literal without a
    [Position] field carries. *)
Definition zeroPosition : Position := mkPosition 0 0.

(** [Token{Type: EOF}]: the value is empty and the position the zero value. *)
Definition EOFToken : Token := mkToken EOF [] zeroPosition.

Definition validKeywords : list gostring :=
  map runes
    [ (* Contracts *)
      "Let"; "When"; "If"; "Pay"; "Assert"; "Close";
      (* Actions *)
      "Deposit"; "Notify"; "Choice"; "ChoiceId"; "Bound";
      (* Values *)
      "AvailableMoney"; "Constant"; "NegValue"; "AddValue"; "SubValue";
      "MulValue"; "DivValue"; "ChoiceValue"; "TimeIntervalValue"; "UseValue";
      "Cond";
      (* Observations *)
      "AndObs"; "OrObs"; "NotObs"; "ChoseSomething"; "ValueGE"; "ValueGT";
      "ValueLE"; "ValueLT"; "ValueEQ"; "TrueObs"; "FalseObs" ]%string.

(** *** The buffered reader

    [bufio.Reader] over an in-memory input: [buf] is the input not yet read and
    [lastRune] the rune that [UnreadRune] may give back, which is the one
    returned by [ReadRune] when that was the last operation. *)
Record Reader : Type := mkReader { buf : list rune; lastRune : option rune }.

(** [ReadRune]: [None] is [io.EOF]. *)
Definition ReadRune (rd : Reader) : option rune * Reader :=
  match buf rd with
  | [] => (None, mkReader [] None)
  | r :: rest => (Some r, mkReader rest (Some r))
  end.

(** [UnreadRune]: [None] is [bufio.ErrInvalidUnreadRune]. *)
Definition UnreadRune (rd : Reader) : option Reader :=
  match lastRune rd with
  | Some r => Some (mkReader (r :: buf rd) None)
  | None => None
  end.

Record Scanner : Type := mkScanner { position : Position; reader : Reader }.

Definition NewScanner (input : list rune) : Scanner :=
  mkScanner (mkPosition 1 0) (mkReader input None).

Definition incColumn (p : Position) : Position :=
  mkPosition (Line p) (Column p + 1).

Definition decColumn (p : Position) : Position :=
  mkPosition (Line p) (Column p - 1).

(** [resetPosition] (lines 252-255). *)
Definition resetPosition (p : Position) : Position :=
  mkPosition (Line p + 1) 0.

(** [backup] (lines 171-176); [None] is the panic on a failed [UnreadRune]. *)
Definition backup (scan : Scanner) : option Scanner :=
  match UnreadRune (reader scan) with
  | Some rd => Some (mkScanner (decColumn (position scan)) rd)
  | None => None
  end.

(** The scanner after a successful [ReadRune] of [r] followed by
    [scan.position.Column++]. *)
Definition afterRead (pos : Position) (r : rune) (rest : list rune) : Scanner :=
  mkScanner (incColumn pos) (mkReader rest (Some r)).

(** The scanner after [ReadRune] returned [io.EOF]. *)
Definition atEOF (pos : Position) : Scanner :=
  mkScanner pos (mkReader [] None).

(** [isValidKeyword] (lines 162-169). *)
Definition isValidKeyword (word : gostring) : bool :=
  existsb (fun kw => if list_eq_dec Z.eq_dec word kw then true else false)
          validKeywords.

Section Scanning.

(** The class of the runes above ASCII, from the tables of package [unicode],
    which the repository does not contain. *)
Variable unicodeTable : rune -> RuneClass.

Definition classOf (r : rune) : RuneClass :=
  if (0 <=? r) && (r <? 128) then asciiClass r else unicodeTable r.

Definition IsSpace (r : rune) : bool :=
  match classOf r with Space => true | _ => false end.
Definition IsDigit (r : rune) : bool :=
  match classOf r with Digit => true | _ => false end.
Definition IsLetter (r : rune) : bool :=
  match classOf r with Letter => true | _ => false end.
Definition IsPunct (r : rune) : bool :=
  match classOf r with Punct => true | _ => false end.

(** Each loop of the scanner reads one rune per iteration and stops at
    [io.EOF], so it is written by recursion on the unread input; [pos] is
    [scan.position] at the head of the iteration.  A result [None] is a
    panic. *)

(** [integer] (lines 178-203).  The flag is the returned error being
    non-nil. *)
Fixpoint integer_loop (number : gostring) (pos : Position) (input : list rune)
  : option (gostring * bool * Scanner) :=
  match input with
  | [] => Some (number, false, atEOF pos)
  | r :: rest =>
      let scan := afterRead pos r rest in
      if IsLetter r || IsPunct r then
        match backup scan with
        | Some scan' => Some (number, true, scan')
        | None => None
        end
      else if IsDigit r then integer_loop (number ++ [r]) (position scan) rest
      else
        match backup scan with
        | Some scan' => Some (number, false, scan')
        | None => None
        end
  end.

Definition integer (scan : Scanner) : option (gostring * bool * Scanner) :=
  integer_loop [] (position scan) (buf (reader scan)).

(** [str] (lines 205-229); [quote] is a [uint8]. *)
Fixpoint str_loop (s : gostring) (quote : Z) (pos : Position)
  (input : list rune) : option (gostring * Scanner) :=
  match input with
  | [] => Some (s, atEOF pos)
  | r :: rest =>
      let scan := afterRead pos r rest in
      let quote := if r =? 34 then (quote + 1) mod 256 else quote in
      if quote <? 2 then str_loop (s ++ [r]) quote (position scan) rest
      else
        match backup scan with
        | Some scan' => Some (s, scan')
        | None => None
        end
  end.

Definition str (scan : Scanner) : option (gostring * Scanner) :=
  str_loop [] 0 (position scan) (buf (reader scan)).

(** [keyword] (lines 231-250). *)
Fixpoint keyword_loop (s : gostring) (pos : Position) (input : list rune)
  : option (gostring * Scanner) :=
  match input with
  | [] => Some (s, atEOF pos)
  | r :: rest =>
      let scan := afterRead pos r rest in
      if IsLetter r then keyword_loop (s ++ [r]) (position scan) rest
      else
        match backup scan with
        | Some scan' => Some (s, scan')
        | None => None
        end
  end.

Definition keyword (scan : Scanner) : option (gostring * Scanner) :=
  keyword_loop [] (position scan) (buf (reader scan)).

(** [Scan] (lines 93-160): the token and the scanner after the call. *)
Fixpoint Scan_loop (pos : Position) (input : list rune)
  : option (Token * Scanner) :=
  match input with
  | [] => Some (EOFToken, atEOF pos)
  | r :: rest =>
      let scan := afterRead pos r rest in
      if r =? 10 then Scan_loop (resetPosition (position scan)) rest
      else if r =? 40 then Some (mkToken PARENS_L [40] (position scan), scan)
      else if r =? 41 then Some (mkToken PARENS_R [41] (position scan), scan)
      else if r =? 91 then Some (mkToken SQUARE_L [91] (position scan), scan)
      else if r =? 93 then Some (mkToken SQUARE_R [93] (position scan), scan)
      else if r =? 44 then Some (mkToken COMMA [44] (position scan), scan)
      else if r =? 34 then
        match backup scan with
        | None => None
        | Some scan1 =>
            match str scan1 with
            | None => None
            | Some (s, scan2) => Some (mkToken STRING s (position scan2), scan2)
            end
        end
      else if IsSpace r then Scan_loop (position scan) rest
      else if IsDigit r then
        match backup scan with
        | None => None
        | Some scan1 =>
            match integer scan1 with
            | None => None
            | Some (num, true, scan2) =>
                Some (mkToken INVALID num (position scan2), scan2)
            | Some (num, false, scan2) =>
                Some (mkToken INT num (position scan2), scan2)
            end
        end
      else if IsLetter r then
        match backup scan with
        | None => None
        | Some scan1 =>
            match keyword scan1 with
            | None => None
            | Some (kw, scan2) =>
                if isValidKeyword kw
                then Some (mkToken KEYWORD kw (position scan2), scan2)
                else Some (mkToken INVALID kw zeroPosition, scan2)
            end
        end
      else Some (mkToken INVALID [r] (position scan), scan)
  end.

Definition Scan (scan : Scanner) : option (Token * Scanner) :=
  Scan_loop (position scan) (buf (reader scan)).

(** [testScanner] of [scanner_test.go]: call [Scan] until it returns [EOF] and
    collect the tokens.  [fuel] bounds the number of calls. *)
Fixpoint scanAll (fuel : nat) (scan : Scanner) : option (list Token) :=
  match fuel with
  | O => None
  | S fuel' =>
      match Scan scan with
      | None => None
      | Some (tok, scan') =>
          if TokenType_eqb (Type_ tok) EOF then Some [tok]
          else option_map (cons tok) (scanAll fuel' scan')
      end
  end.

Definition testScanner (input : list rune) : option (list Token) :=
  scanAll (S (List.length input)) (NewScanner input).

End Scanning.

(** A table that puts every rune above ASCII in no class, to run the scanner
    on concrete inputs. *)
Definition noTable : rune -> RuneClass := fun _ => Other.

End Translator.

(* ------------------------------------------------------------------ *)
(** ** JSON documents as [encoding/json] writes them *)

Module Json.

Open Scope string_scope.

(** A document: the fields of an object are kept in the order of writing. *)
Inductive json : Type :=
| JNull
| JBool (b : bool)
| JNumber (n : Z)
| JString (s : string)
| JArray (items : list json)
| JObject (fields : list (string * json)).

(** [big.Int.String], and [strconv] on a Go integer: the base-10 numeral,
    with a minus sign for a negative number. *)
Definition decimal (n : Z) : string :=
  DecimalString.NilZero.string_of_int (Z.to_int n).

Definition byte (a : ascii) : Z := Z.of_N (N_of_ascii a).

Definition hexDigit (n : Z) : ascii :=
  match n with
  | 0 => "0" | 1 => "1" | 2 => "2" | 3 => "3" | 4 => "4" | 5 => "5"
  | 6 => "6" | 7 => "7" | 8 => "8" | 9 => "9" | 10 => "a" | 11 => "b"
  | 12 => "c" | 13 => "d" | 14 => "e" | _ => "f"
  end%char%Z.

(** One byte below [utf8.RuneSelf]: the quote and the backslash take a
    backslash, the other control bytes and ['<'], ['>'], ['&'] are written
    [\u00XX]. *)
Definition escapeAscii (a : ascii) : string :=
  let b := byte a in
  if ((b =? 34) || (b =? 92))%Z then String "\" (String a EmptyString)
  else if (b =? 10)%Z then "\n"
  else if (b =? 13)%Z then "\r"
  else if (b =? 9)%Z then "\t"
  else if ((b <? 32) || (b =? 60) || (b =? 62) || (b =? 38))%Z
       then "\u00" ++ String (hexDigit (b / 16)) (String (hexDigit (b mod 16)) EmptyString)
  else String a EmptyString.

Definition cont (b : Z) : bool := ((128 <=? b) && (b <=? 191))%Z.

Definition utf8_2 (b1 b2 : Z) : bool :=
  ((194 <=? b1) && (b1 <=? 223))%Z && cont b2.

Definition utf8_3 (b1 b2 b3 : Z) : bool :=
  (((b1 =? 224) && (160 <=? b2) && (b2 <=? 191))
   || ((225 <=? b1) && (b1 <=? 236) && cont b2)
   || ((b1 =? 237) && (128 <=? b2) && (b2 <=? 159))
   || ((238 <=? b1) && (b1 <=? 239) && cont b2))%Z
  && cont b3.

Definition utf8_4 (b1 b2 b3 b4 : Z) : bool :=
  (((b1 =? 240) && (144 <=? b2) && (b2 <=? 191))
   || ((241 <=? b1) && (b1 <=? 243) && cont b2)
   || ((b1 =? 244) && (128 <=? b2) && (b2 <=? 143)))%Z
  && cont b3 && cont b4.

(** The body of a string literal: valid UTF-8 is copied, except U+2028 and
    U+2029; a byte that starts no valid sequence is written as the escape of U+FFFD. *)
Fixpoint escape (s : string) : string :=
  match s with
  | EmptyString => EmptyString
  | String a1 r1 =>
      let invalid := "\ufffd" ++ escape r1 in
      if (byte a1 <? 128)%Z then escapeAscii a1 ++ escape r1
      else
        match r1 with
        | EmptyString => invalid
        | String a2 r2 =>
            if utf8_2 (byte a1) (byte a2)
            then String a1 (String a2 (escape r2))
            else
              match r2 with
              | EmptyString => invalid
              | String a3 r3 =>
                  if utf8_3 (byte a1) (byte a2) (byte a3) then
                    if ((byte a1 =? 226) && (byte a2 =? 128)
                        && ((byte a3 =? 168) || (byte a3 =? 169)))%Z
                    then "\u202" ++ String (hexDigit (byte a3 mod 16)) (escape r3)
                    else String a1 (String a2 (String a3 (escape r3)))
                  else
                    match r3 with
                    | EmptyString => invalid
                    | String a4 r4 =>
                        if utf8_4 (byte a1) (byte a2) (byte a3) (byte a4)
                        then String a1 (String a2 (String a3 (String a4 (escape r4))))
                        else invalid
                    end
              end
        end
  end.

Definition dquote : ascii := "034"%char.

Definition quoteString (s : string) : string :=
  String dquote (escape s ++ String dquote EmptyString).

(** Expected texts are written with an apostrophe for each double quote. *)
Fixpoint dq (s : string) : string :=
  match s with
  | EmptyString => EmptyString
  | String a s' => String (if Ascii.eqb a "'"%char then dquote else a) (dq s')
  end.

(** The compact text of a document. *)
Fixpoint render (d : json) : string :=
  match d with
  | JNull => "null"
  | JBool true => "true"
  | JBool false => "false"
  | JNumber n => decimal n
  | JString s => quoteString s
  | JArray items =>
      let fix go (first : bool) (l : list json) : string :=
        match l with
        | [] => EmptyString
        | x :: l' => (if first then EmptyString else ",") ++ render x ++ go false l'
        end in
      "[" ++ go true items ++ "]"
  | JObject fields =>
      let fix go (first : bool) (l : list (string * json)) : string :=
        match l with
        | [] => EmptyString
        | (k, v) :: l' =>
            (if first then EmptyString else ",") ++ quoteString k ++ ":" ++ render v
            ++ go false l'
        end in
      "{" ++ go true fields ++ "}"
  end.

(** [big.Int.SetString(s, 10)]: an optional sign and then one or more decimal
    digits, with nothing else; [None] is the failure, for which it returns
    [nil, false]. *)
Definition digits (s : string) : option Z :=
  option_map Z.of_uint (DecimalString.NilZero.uint_of_string s).

Definition SetString (s : string) : option Z :=
  match s with
  | String "+"%char r => digits r
  | String "-"%char r => option_map Z.opp (digits r)
  | _ => digits s
  end.

End Json.

(* ------------------------------------------------------------------ *)
(** ** Package [language]: the contract types and their JSON form *)

Module Language.

Import Json.
Open Scope string_scope.

(** *** Parties, tokens and choices *)

(** [Party] is an interface; [Address] (a string type) and [Role] have
    [isParty]. *)
Inductive Party : Type :=
| Address (a : string)
| Role (Name : string).

Definition AccountId := Party.

Inductive Token : Type := mkToken (Symbol Name : string).

(** [var Ada Token = Token{}]. *)
Definition Ada : Token := mkToken EmptyString EmptyString.

Inductive Payee : Type := mkPayee (party : Party).

Inductive ChoiceId : Type := mkChoiceId (Name : string) (Owner : Party).

(** [Upper] and [Lower] are [uint64]. *)
Inductive Bound : Type := mkBound (Upper Lower : Z).

Definition ValueId := string.

(** *** Values and observations ([value_types.go])

    [Value] and [Observation] are interfaces.  Every observation type has
    [isValue] as well, so a field of type [Value] may hold an observation:
    [ObservationValue].  [Constant] is a [big.Int], [TimeIntervalValue] a
    string type with the two constants below, [BoolObs] a [bool] type with
    [TrueObs] and [FalseObs]; [Cond] has a [bool] for its observation. *)
Inductive Value : Type :=
| AvailableMoney (Amount : Token) (Account : AccountId)
| ChoiceValue (Value_ : ChoiceId)
| UseValue (Value_ : ValueId)
| TimeIntervalValue (s : string)
| Constant (i : Z)
| NegValue (Neg : Value)
| AddValue (Add To : Value)
| MulValue (Multiply By : Value)
| SubValue (Subtract From : Value)
| DivValue (Divide By : Value)
| Cond (Observation_ : bool) (IfTrue IfFalse : Value)
| ObservationValue (o : Observation)
with Observation : Type :=
| AndObs (Both And : Observation)
| OrObs (Either Or : Observation)
| NotObs (Not : Observation)
| ChoseSomething (Choice_ : ChoiceId)
| ValueGE (Value_ Ge : Value)
| ValueGT (Value_ Gt : Value)
| ValueLT (Value_ Lt : Value)
| ValueLE (Value_ Le : Value)
| ValueEQ (Value_ Eq : Value)
| BoolObs (b : bool).

Definition TimeIntervalStart : Value := TimeIntervalValue "time_interval_start".
Definition TimeIntervalEnd : Value := TimeIntervalValue "time_interval_end".
Definition TrueObs : Observation := BoolObs true.
Definition FalseObs : Observation := BoolObs false.

(** *** Actions *)

Inductive Action : Type :=
| Deposit (AccountId_ : AccountId) (Party_ : Party) (Token_ : Token)
          (Value_ : Value)
| Choice (ChoiceId_ : ChoiceId) (Bounds : list Bound)
| Notify (Observation_ : Observation).

(** *** Contracts

    [CloseContract] is a string type with the constant [Close]; [Timeout] is
    an [int].  The struct [Case] has a third field, [Case CaseStmt], which no
    construction in the repository sets: it is nil here. *)
Inductive Contract : Type :=
| CloseContract (s : string)
| Pay (AccountId_ : AccountId) (Payee_ : Payee) (Token_ : Token)
      (Pay_ : Value) (Continue : Contract)
| If (Observation_ : Observation) (Then Else : Contract)
| When (Cases : list Case) (Timeout : Z) (Continue : Contract)
| Let (Name : ValueId) (Value_ : Value) (Continue : Contract)
| Assert (Observation_ : Observation) (Continue : Contract)
with Case : Type :=
| mkCase (Action_ : Action) (Contract_ : Contract).

Definition Close : Contract := CloseContract "close".

(** *** [json.Marshal]

    A struct becomes an object whose keys are the [json] tags of its fields,
    or the names of the fields that have no tag, in the order of declaration;
    a value of a string, boolean or integer type becomes that scalar; an
    interface value becomes what its dynamic value becomes, and [null] when it
    is nil; a slice becomes an array. *)

Definition encode_party (p : Party) : json :=
  match p with
  | Address a => JString a
  | Role n => JObject [("role_token", JString n)]
  end.

Definition encode_token (t : Token) : json :=
  match t with
  | mkToken s n => JObject [("currency_symbol", JString s); ("token_name", JString n)]
  end.

Definition encode_payee (p : Payee) : json :=
  match p with
  | mkPayee party => JObject [("Party", encode_party party)]
  end.

Definition encode_choiceId (c : ChoiceId) : json :=
  match c with
  | mkChoiceId n o => JObject [("choice_name", JString n); ("choice_owner", encode_party o)]
  end.

Definition encode_bound (b : Bound) : json :=
  match b with
  | mkBound u l => JObject [("from", JNumber u); ("to", JNumber l)]
  end.

(** [Constant.MarshalJSON] (lines 93-96): the bytes of [i.String()]. *)
Definition Constant_MarshalJSON (i : Z) : string := decimal i.

(** [SetConstant] (lines 98-102); [None] is the panic of [*num] when
    [SetString] returns a nil pointer. *)
Definition SetConstant (s : string) : option Value :=
  match SetString s with
  | Some num => Some (Constant num)
  | None => None
  end.

Fixpoint encode_value (v : Value) : json :=
  match v with
  | AvailableMoney t a =>
      JObject [("amount_of_token", encode_token t); ("in_account", encode_party a)]
  | ChoiceValue c => JObject [("value_of_choice", encode_choiceId c)]
  | UseValue i => JObject [("use_value", JString i)]
  | TimeIntervalValue s => JString s
  | Constant i => JNumber i
  | NegValue a => JObject [("negate", encode_value a)]
  | AddValue a b => JObject [("add", encode_value a); ("and", encode_value b)]
  | MulValue a b => JObject [("multiply", encode_value a); ("times", encode_value b)]
  | SubValue a b => JObject [("minus", encode_value a); ("value", encode_value b)]
  | DivValue a b => JObject [("divide", encode_value a); ("by", encode_value b)]
  | Cond o t f =>
      JObject [("Observation", JBool o); ("IfTrue", encode_value t);
               ("IfFalse", encode_value f)]
  | ObservationValue o => encode_observation o
  end
with encode_observation (o : Observation) : json :=
  match o with
  | AndObs a b => JObject [("both", encode_observation a); ("and", encode_observation b)]
  | OrObs a b => JObject [("either", encode_observation a); ("or", encode_observation b)]
  | NotObs a => JObject [("not", encode_observation a)]
  | ChoseSomething c => JObject [("chose_something_for", encode_choiceId c)]
  | ValueGE a b => JObject [("value", encode_value a); ("ge_than", encode_value b)]
  | ValueGT a b => JObject [("value", encode_value a); ("gt", encode_value b)]
  | ValueLT a b => JObject [("value", encode_value a); ("lt", encode_value b)]
  | ValueLE a b => JObject [("value", encode_value a); ("le_than", encode_value b)]
  | ValueEQ a b => JObject [("value", encode_value a); ("equal_to", encode_value b)]
  | BoolObs b => JBool b
  end.

(** [Deposit] and [Notify] have no tags. *)
Definition encode_action (a : Action) : json :=
  match a with
  | Deposit acc p t v =>
      JObject [("AccountId", encode_party acc); ("Party", encode_party p);
               ("Token", encode_token t); ("Value", encode_value v)]
  | Choice c bs =>
      JObject [("for_choice", encode_choiceId c);
               ("choose_between", JArray (map encode_bound bs))]
  | Notify o => JObject [("Observation", encode_observation o)]
  end.

(** [When] and [Case] have no tags. *)
Fixpoint encode_contract (c : Contract) : json :=
  match c with
  | CloseContract s => JString s
  | Pay a p t v k =>
      JObject [("from_account", encode_party a); ("to", encode_payee p);
               ("token", encode_token t); ("pay", encode_value v);
               ("then", encode_contract k)]
  | If o a b =>
      JObject [("if", encode_observation o); ("then", encode_contract a);
               ("else", encode_contract b)]
  | When cs t k =>
      JObject [("Cases", JArray (map encode_case cs)); ("Timeout", JNumber t);
               ("Continue", encode_contract k)]
  | Let n v k =>
      JObject [("let", JString n); ("be", encode_value v);
               ("then", encode_contract k)]
  | Assert o k =>
      JObject [("assert", encode_observation o); ("then", encode_contract k)]
  end
with encode_case (c : Case) : json :=
  match c with
  | mkCase a k =>
      JObject [("Case", JNull); ("Action", encode_action a);
               ("Contract", encode_contract k)]
  end.

(** The bytes that [json.Marshal] returns for a contract. *)
Definition Marshal (c : Contract) : string := render (encode_contract c).

End Language.

(* ------------------------------------------------------------------ *)
(** ** The decoder of the canonical documents

    The repository has no function that reads a document back: no type has an
    [UnmarshalJSON] and nothing calls [json.Unmarshal]. *)

Module Codec.

Import Json Language.
Open Scope string_scope.

Definition lift2 {A B C : Type} (f : A -> B -> C) (a : option A) (b : option B)
  : option C :=
  match a, b with
  | Some x, Some y => Some (f x y)
  | _, _ => None
  end.

Definition traverse {A B : Type} (f : A -> option B) : list A -> option (list B) :=
  fix go (l : list A) : option (list B) :=
    match l with
    | [] => Some []
    | x :: l' => lift2 cons (f x) (go l')
    end.

(** Modelled from the spec: the decoder is missing from the repository.  The
    canonical tag table gives [Role(name)] the document
    [{"role_token":name}] and no document to [Address]; a document whose
    key-set matches no variant is rejected. *)
Definition decode_party (d : json) : option Party :=
  match d with
  | JObject [(k, JString n)] => if k =? "role_token" then Some (Role n) else None
  | _ => None
  end.

(** Modelled from the spec: [Asset(symbol,name)] is
    [{"currency_symbol":symbol,"token_name":name}]. *)
Definition decode_token (d : json) : option Token :=
  match d with
  | JObject [(k1, JString s); (k2, JString n)] =>
      if (k1 =? "currency_symbol") && (k2 =? "token_name")
      then Some (mkToken s n) else None
  | _ => None
  end.

(** Modelled from the spec: the [to] field of [Pay] wraps the party of the
    payee under the capitalized key [Party] (design notes, last item). *)
Definition decode_payee (d : json) : option Payee :=
  match d with
  | JObject [(k, p)] =>
      if k =? "Party" then option_map mkPayee (decode_party p) else None
  | _ => None
  end.

(** Modelled from the spec: [ChoiceId(name,owner)] is
    [{"choice_name":name,"choice_owner":encode(owner)}]. *)
Definition decode_choiceId (d : json) : option ChoiceId :=
  match d with
  | JObject [(k1, JString n); (k2, o)] =>
      if (k1 =? "choice_name") && (k2 =? "choice_owner")
      then option_map (mkChoiceId n) (decode_party o) else None
  | _ => None
  end.

(** A [uint64]. *)
Definition isUint64 (n : Z) : bool := (0 <=? n)%Z && (n <? 2 ^ 64)%Z.

(** Modelled from the spec: [Bound(upper,lower)] is
    [{"from":upper,"to":lower}], both bounds being unsigned 64-bit numbers. *)
Definition decode_bound (d : json) : option Bound :=
  match d with
  | JObject [(k1, JNumber u); (k2, JNumber l)] =>
      if (k1 =? "from") && (k2 =? "to") && isUint64 u && isUint64 l
      then Some (mkBound u l) else None
  | _ => None
  end.

Definition asObservation (v : option Value) : option Observation :=
  match v with
  | Some (ObservationValue o) => Some o
  | _ => None
  end.

Definition obs2 (f : Observation -> Observation -> Observation)
  (a b : option Value) : option Value :=
  option_map ObservationValue (lift2 f (asObservation a) (asObservation b)).

Definition cmp2 (f : Value -> Value -> Observation) (a b : option Value)
  : option Value :=
  option_map ObservationValue (lift2 f a b).

(** Modelled from the spec: the rows of the canonical tag table for [Value]
    and [Observation].  A nullary variant is a bare scalar, every other
    variant an object with its literal keys in the order of the table; the
    variants of shape [{"value":a,K:b}] are told apart by the second key.  An
    observation read in the place of a value is an [ObservationValue].  The
    table has no row for [Cond]. *)
Fixpoint decode_value (d : json) : option Value :=
  match d with
  | JNumber n => Some (Constant n)
  | JBool b => Some (ObservationValue (BoolObs b))
  | JString s =>
      if s =? "time_interval_start" then Some TimeIntervalStart
      else if s =? "time_interval_end" then Some TimeIntervalEnd
      else None
  | JObject [(k, a)] =>
      if k =? "negate" then option_map NegValue (decode_value a)
      else if k =? "value_of_choice" then option_map ChoiceValue (decode_choiceId a)
      else if k =? "use_value" then
        match a with JString i => Some (UseValue i) | _ => None end
      else if k =? "not" then
        option_map (fun o => ObservationValue (NotObs o))
                   (asObservation (decode_value a))
      else if k =? "chose_something_for" then
        option_map (fun c => ObservationValue (ChoseSomething c)) (decode_choiceId a)
      else None
  | JObject [(k1, a); (k2, b)] =>
      if (k1 =? "amount_of_token") && (k2 =? "in_account") then
        lift2 AvailableMoney (decode_token a) (decode_party b)
      else if (k1 =? "add") && (k2 =? "and") then
        lift2 AddValue (decode_value a) (decode_value b)
      else if (k1 =? "minus") && (k2 =? "value") then
        lift2 SubValue (decode_value a) (decode_value b)
      else if (k1 =? "multiply") && (k2 =? "times") then
        lift2 MulValue (decode_value a) (decode_value b)
      else if (k1 =? "divide") && (k2 =? "by") then
        lift2 DivValue (decode_value a) (decode_value b)
      else if (k1 =? "both") && (k2 =? "and") then
        obs2 AndObs (decode_value a) (decode_value b)
      else if (k1 =? "either") && (k2 =? "or") then
        obs2 OrObs (decode_value a) (decode_value b)
      else if k1 =? "value" then
        if k2 =? "ge_than" then cmp2 ValueGE (decode_value a) (decode_value b)
        else if k2 =? "gt" then cmp2 ValueGT (decode_value a) (decode_value b)
        else if k2 =? "lt" then cmp2 ValueLT (decode_value a) (decode_value b)
        else if k2 =? "le_than" then cmp2 ValueLE (decode_value a) (decode_value b)
        else if k2 =? "equal_to" then cmp2 ValueEQ (decode_value a) (decode_value b)
        else None
      else None
  | _ => None
  end.

Definition decode_observation (d : json) : option Observation :=
  asObservation (decode_value d).

(** Modelled from the spec: the rows of the canonical tag table for
    [Deposit], [Choice] and [Notify]. *)
Definition decode_action (d : json) : option Action :=
  match d with
  | JObject [(k, o)] =>
      if k =? "notify_if" then option_map Notify (decode_observation o) else None
  | JObject [(k1, c); (k2, JArray bs)] =>
      if (k1 =? "for_choice") && (k2 =? "choose_between")
      then lift2 Choice (decode_choiceId c) (traverse decode_bound bs) else None
  | JObject [(k1, a); (k2, p); (k3, t); (k4, v)] =>
      if (k1 =? "into_account") && (k2 =? "party") && (k3 =? "of_token")
         && (k4 =? "deposits")
      then
        match decode_party a, decode_party p, decode_token t, decode_value v with
        | Some a', Some p', Some t', Some v' => Some (Deposit a' p' t' v')
        | _, _, _, _ => None
        end
      else None
  | _ => None
  end.

(** Modelled from the spec: the rows of the canonical tag table for
    [Contract] and [Case]. *)
Fixpoint decode_contract (d : json) : option Contract :=
  match d with
  | JString s => if s =? "close" then Some Close else None
  | JObject [(k1, o); (k2, k)] =>
      if (k1 =? "assert") && (k2 =? "then")
      then lift2 Assert (decode_observation o) (decode_contract k) else None
  | JObject [(k1, a); (k2, b); (k3, c)] =>
      if (k1 =? "let") && (k2 =? "be") && (k3 =? "then") then
        match a with
        | JString n => lift2 (Let n) (decode_value b) (decode_contract c)
        | _ => None
        end
      else if (k1 =? "if") && (k2 =? "then") && (k3 =? "else") then
        match decode_observation a, decode_contract b, decode_contract c with
        | Some o, Some x, Some y => Some (If o x y)
        | _, _, _ => None
        end
      else if (k1 =? "when") && (k2 =? "timeout")
              && (k3 =? "timeout_continuation") then
        match a, b with
        | JArray cs, JNumber t =>
            match traverse decode_case cs, decode_contract c with
            | Some cs', Some k => Some (When cs' t k)
            | _, _ => None
            end
        | _, _ => None
        end
      else None
  | JObject [(k1, a); (k2, p); (k3, t); (k4, v); (k5, k)] =>
      if (k1 =? "from_account") && (k2 =? "to") && (k3 =? "token")
         && (k4 =? "pay") && (k5 =? "then")
      then
        match decode_party a, decode_payee p, decode_token t, decode_value v,
              decode_contract k with
        | Some a', Some p', Some t', Some v', Some k' => Some (Pay a' p' t' v' k')
        | _, _, _, _, _ => None
        end
      else None
  | _ => None
  end
with decode_case (d : json) : option Case :=
  match d with
  | JObject [(k1, a); (k2, k)] =>
      if (k1 =? "case") && (k2 =? "then")
      then lift2 mkCase (decode_action a) (decode_contract k) else None
  | _ => None
  end.

(** The nodes built from the variants that the canonical tag table lists:
    parties that are roles, values without [Cond] whose time-interval value
    is one of the two constants, and contracts that end in [Close] and have
    no [When]. *)
Definition inTable_party (p : Party) : bool :=
  match p with Role _ => true | Address _ => false end.

Definition inTable_choiceId (c : ChoiceId) : bool :=
  match c with mkChoiceId _ o => inTable_party o end.

Fixpoint inTable_value (v : Value) : bool :=
  match v with
  | AvailableMoney _ a => inTable_party a
  | ChoiceValue c => inTable_choiceId c
  | UseValue _ | Constant _ => true
  | TimeIntervalValue s =>
      (s =? "time_interval_start") || (s =? "time_interval_end")
  | NegValue a => inTable_value a
  | AddValue a b | MulValue a b | SubValue a b | DivValue a b =>
      inTable_value a && inTable_value b
  | Cond _ _ _ => false
  | ObservationValue o => inTable_observation o
  end
with inTable_observation (o : Observation) : bool :=
  match o with
  | AndObs a b | OrObs a b => inTable_observation a && inTable_observation b
  | NotObs a => inTable_observation a
  | ChoseSomething c => inTable_choiceId c
  | ValueGE a b | ValueGT a b | ValueLT a b | ValueLE a b | ValueEQ a b =>
      inTable_value a && inTable_value b
  | BoolObs _ => true
  end.

Fixpoint inTable_contract (c : Contract) : bool :=
  match c with
  | CloseContract s => s =? "close"
  | Pay a (mkPayee p) _ v k =>
      inTable_party a && inTable_party p && inTable_value v && inTable_contract k
  | If o a b => inTable_observation o && inTable_contract a && inTable_contract b
  | When _ _ _ => false
  | Let _ v k => inTable_value v && inTable_contract k
  | Assert o k => inTable_observation o && inTable_contract k
  end.

Definition inTable_bound (b : Bound) : bool :=
  match b with mkBound u l => isUint64 u && isUint64 l end.

End Codec.

(* ------------------------------------------------------------------ *)
(** ** Vocabulary for the properties of the scanner *)

Module ScannerSpec.

Import Translator.

(** The position reached from [p] after [n] more columns. *)
Definition addColumn (p : Position) (n : nat) : Position :=
  mkPosition (Line p) (Column p + Z.of_nat n).

(** The position of the last of the runes [consumed], counted from [p]: a
    newline starts a line at column 0, any other rune is one more column. *)
Definition advance (p : Position) (consumed : list rune) : Position :=
  fold_left (fun q r => if r =? 10 then resetPosition (incColumn q) else incColumn q)
            consumed p.

(** The lexicographic order on positions. *)
Definition pos_lt (p q : Position) : Prop :=
  Line p < Line q \/ (Line p = Line q /\ Column p < Column q).

Definition pos_le (p q : Position) : Prop :=
  Line p < Line q \/ (Line p = Line q /\ Column p <= Column q).

(** An [INVALID] token made of letters: a word that is no keyword. *)
Definition isInvalidWord (U : rune -> RuneClass) (t : Token) : bool :=
  TokenType_eqb (Type_ t) INVALID
  && match Value t with r :: _ => IsLetter U r | [] => false end.

(** The tokens that are given the position of the scanner: all but [EOF] and
    the invalid words. *)
Definition hasPosition (U : rune -> RuneClass) (t : Token) : bool :=
  negb (TokenType_eqb (Type_ t) EOF) && negb (isInvalidWord U t).

(** The runes that [Scan] tells apart in its [switch]. *)
Definition isSwitchRune (r : rune) : bool :=
  (r =? 10) || (r =? 40) || (r =? 41) || (r =? 91) || (r =? 93) || (r =? 44)
  || (r =? 34).


(** The longest prefix of runes that satisfy [f], and what follows it. *)
Fixpoint span (f : rune -> bool) (l : list rune) : list rune * list rune :=
  match l with
  | [] => ([], [])
  | r :: l' => if f r then let (a, b) := span f l' in (r :: a, b) else ([], l)
  end.


(** [integer] reads the digits at the head of the input; it reports an error
    when a letter or a punctuation rune follows them. *)
Definition integerError (U : rune -> RuneClass) (rest : list rune) : bool :=
  match rest with
  | [] => false
  | c :: _ => IsLetter U c || IsPunct U c
  end.

(** The runes that [Scan] skips between tokens. *)
Definition blank (U : rune -> RuneClass) (r : rune) : bool :=
  (r =? 10) || IsSpace U r.

Definition notQuote (r : rune) : bool := negb (r =? 34).

(** What one call of [Scan] does, from the position [pos] on the unread
    [input]: it skips the blanks [skipped], takes the runes of the token's
    value, and leaves the rest unread; the scanner is then at the position of
    the last rune taken, where the runes of a value all count as columns. *)
Definition scanned (U : rune -> RuneClass) (pos : Position) (input : list rune)
  (tok : Token) (scan' : Scanner) (skipped : list rune) : Prop :=
  input = skipped ++ Value tok ++ buf (reader scan')
  /\ Forall (fun r => blank U r = true) skipped
  /\ position scan' = addColumn (advance pos skipped) (List.length (Value tok))
  /\ (Type_ tok = EOF ->
      Value tok = [] /\ buf (reader scan') = [] /\ Position_ tok = zeroPosition)
  /\ (Type_ tok <> EOF -> Value tok <> [])
  /\ (hasPosition U tok = true -> Position_ tok = position scan')
  /\ (isInvalidWord U tok = true -> Position_ tok = zeroPosition).

End ScannerSpec.

(* ------------------------------------------------------------------ *)
(** ** The lexical grammar that [Scan] follows *)

Module ScanGrammar.

Import Translator ScannerSpec.

(** [TokenType.String]: the entry of the table [tokens] (lines 41-68). *)
Definition TokenType_String (t : TokenType) : string :=
  match t with
  | EOF => "EOF"
  | INVALID => "INVALID"
  | KEYWORD => "KEYWORD"
  | STRING => "STRING"
  | INT => "INT"
  | PARENS_L => "("
  | PARENS_R => ")"
  | SQUARE_L => "["
  | SQUARE_R => "]"
  | COMMA => ","
  end%string.

(** The five runes that are a token by themselves (lines 112-121). *)
Definition structural (r : rune) : option TokenType :=
  if r =? 40 then Some PARENS_L
  else if r =? 41 then Some PARENS_R
  else if r =? 91 then Some SQUARE_L
  else if r =? 93 then Some SQUARE_R
  else if r =? 44 then Some COMMA
  else None.

(** One call of [Scan] at the position [pos] on the unread [input], as a
    relation between the input, the token and the scanner after the call.
    The call skips the blanks [skipped]; [p] below is the position after
    them. *)
Inductive scanStep (U : rune -> RuneClass) (pos : Position)
  (input : list rune) : Token -> Scanner -> Prop :=
| step_eof :
    Forall (fun r => blank U r = true) input ->
    scanStep U pos input EOFToken (atEOF (advance pos input))
| step_structural (skipped : list rune) (r : rune) (rest : list rune) ty :
    input = skipped ++ r :: rest ->
    Forall (fun r => blank U r = true) skipped ->
    structural r = Some ty ->
    scanStep U pos input
      (mkToken ty [r] (incColumn (advance pos skipped)))
      (afterRead (advance pos skipped) r rest)
| step_string (skipped body rest : list rune) :
    input = skipped ++ (34 :: body) ++ rest ->
    Forall (fun r => blank U r = true) skipped ->
    Forall (fun r => notQuote r = true) body ->
    match rest with [] => True | c :: _ => c = 34 end ->
    scanStep U pos input
      (mkToken STRING (34 :: body)
               (addColumn (advance pos skipped) (S (List.length body))))
      (mkScanner (addColumn (advance pos skipped) (S (List.length body)))
                 (mkReader rest None))
| step_digits (skipped ds rest : list rune) :
    input = skipped ++ ds ++ rest ->
    Forall (fun r => blank U r = true) skipped ->
    ds <> [] ->
    Forall (fun r => IsDigit U r = true) ds ->
    match rest with [] => True | c :: _ => IsDigit U c = false end ->
    scanStep U pos input
      (mkToken (if integerError U rest then INVALID else INT) ds
               (addColumn (advance pos skipped) (List.length ds)))
      (mkScanner (addColumn (advance pos skipped) (List.length ds))
                 (mkReader rest None))
| step_letters (skipped w rest : list rune) :
    input = skipped ++ w ++ rest ->
    Forall (fun r => blank U r = true) skipped ->
    w <> [] ->
    Forall (fun r => IsLetter U r = true) w ->
    match rest with [] => True | c :: _ => IsLetter U c = false end ->
    scanStep U pos input
      (if isValidKeyword w
       then mkToken KEYWORD w (addColumn (advance pos skipped) (List.length w))
       else mkToken INVALID w zeroPosition)
      (mkScanner (addColumn (advance pos skipped) (List.length w))
                 (mkReader rest None))
| step_other (skipped : list rune) (r : rune) (rest : list rune) :
    input = skipped ++ r :: rest ->
    Forall (fun r => blank U r = true) skipped ->
    isSwitchRune r = false ->
    IsSpace U r = false -> IsDigit U r = false -> IsLetter U r = false ->
    scanStep U pos input
      (mkToken INVALID [r] (incColumn (advance pos skipped)))
      (afterRead (advance pos skipped) r rest).

(** The input put back together from the blanks skipped before each token and
    the values of the tokens. *)
Fixpoint weave (gaps : list (list rune)) (toks : list Token) : list rune :=
  match gaps, toks with
  | g :: gaps', t :: toks' => g ++ Value t ++ weave gaps' toks'
  | _, _ => []
  end.

(** The scanners that a caller can hold: the new one and those that calls of
    [Scan] return. *)
Inductive reachable (U : rune -> RuneClass) (input : list rune)
  : Scanner -> Prop :=
| reach_new : reachable U input (NewScanner input)
| reach_scan scan tok scan' :
    reachable U input scan ->
    Scan U scan = Some (tok, scan') ->
    reachable U input scan'.

(** The shape of the value of a token of each type. *)
Definition wellFormed (U : rune -> RuneClass) (t : Token) : Prop :=
  match Type_ t with
  | EOF => Value t = []
  | INT => Value t <> [] /\ Forall (fun r => IsDigit U r = true) (Value t)
  | KEYWORD => In (Value t) validKeywords
  | STRING =>
      exists body, Value t = 34 :: body
                   /\ Forall (fun r => notQuote r = true) body
  | PARENS_L => Value t = [40]
  | PARENS_R => Value t = [41]
  | SQUARE_L => Value t = [91]
  | SQUARE_R => Value t = [93]
  | COMMA => Value t = [44]
  | INVALID =>
      (Value t <> [] /\ Forall (fun r => IsDigit U r = true) (Value t))
      \/ (Value t <> [] /\ Forall (fun r => IsLetter U r = true) (Value t)
          /\ ~ In (Value t) validKeywords)
      \/ (exists r, Value t = [r] /\ blank U r = false
                    /\ IsDigit U r = false /\ IsLetter U r = false
                    /\ structural r = None /\ r <> 34)
  end.

End ScanGrammar.

(* ------------------------------------------------------------------ *)
(** ** What [str] reads *)

Module StrSpec.

Import Translator ScannerSpec.

(** The text that [str] returns on the unread [input]: the runes up to the
    second quote, which is left out. *)
Definition strText (input : list rune) : list rune :=
  match snd (span notQuote input) with
  | [] => fst (span notQuote input)
  | q :: after => fst (span notQuote input) ++ q :: fst (span notQuote after)
  end.

(** The input that [str] leaves unread. *)
Definition strRest (input : list rune) : list rune :=
  match snd (span notQuote input) with
  | [] => []
  | q :: after => snd (span notQuote after)
  end.

End StrSpec.

(* ------------------------------------------------------------------ *)
(** ** Vocabulary for the properties of the JSON form *)

Module JsonSpec.

Import Json.

(** No name occurs twice in the list. *)
Fixpoint distinct (names : list string) : bool :=
  match names with
  | [] => true
  | n :: rest => negb (existsb (String.eqb n) rest) && distinct rest
  end.

(** Every object of the document has distinct keys. *)
Fixpoint keysDistinct (d : json) : bool :=
  match d with
  | JArray items => forallb keysDistinct items
  | JObject fields =>
      distinct (map fst fields)
      && forallb (fun kv => keysDistinct (snd kv)) fields
  | _ => true
  end.

Definition isDigitChar (a : ascii) : bool :=
  (48 <=? byte a)%Z && (byte a <=? 57)%Z.

Fixpoint allDigits (s : string) : bool :=
  match s with
  | EmptyString => true
  | String a s' => isDigitChar a && allDigits s'
  end.

Definition nonEmpty (s : string) : bool :=
  match s with EmptyString => false | String _ _ => true end.

(** A base-10 numeral: one or more digits after an optional sign. *)
Definition isNumeral (s : string) : bool :=
  match s with
  | String "+"%char r => nonEmpty r && allDigits r
  | String "-"%char r => nonEmpty r && allDigits r
  | _ => nonEmpty s && allDigits s
  end.

End JsonSpec.

Module NumeralSpec.

Import Json JsonSpec.

(** Digits that do not start with a zero. *)
Definition noLeadingZero (s : string) : bool :=
  match s with
  | EmptyString => false
  | String a _ => negb (Ascii.eqb a "0"%char) && allDigits s
  end.

(** The numerals that [big.Int.String] writes: [0], or digits that do not
    start with a zero, after a minus sign for a negative number. *)
Definition isCanonical (s : string) : bool :=
  match s with
  | String "0"%char EmptyString => true
  | String "-"%char r => noLeadingZero r
  | _ => noLeadingZero s
  end.

End NumeralSpec.

(* ================================================================== *)
(** * Part II: the scanner *)
(* ================================================================== *)

Module ScannerFacts.

Import Translator ScannerSpec.

Section Facts.

Variable U : rune -> RuneClass.

Lemma pos_lt_le p q : pos_lt p q -> pos_le p q.
Proof. unfold pos_lt, pos_le; lia. Qed.

Lemma pos_le_refl p : pos_le p p.
Proof. unfold pos_le; lia. Qed.

Lemma pos_le_lt_trans p q r : pos_le p q -> pos_lt q r -> pos_lt p r.
Proof. unfold pos_lt, pos_le; lia. Qed.

Lemma pos_lt_le_trans p q r : pos_lt p q -> pos_le q r -> pos_lt p r.
Proof. unfold pos_lt, pos_le; lia. Qed.

Lemma pos_le_trans p q r : pos_le p q -> pos_le q r -> pos_le p r.
Proof. unfold pos_le; lia. Qed.

Lemma pos_lt_incColumn p : pos_lt p (incColumn p).
Proof. unfold pos_lt, incColumn; simpl; lia. Qed.

Lemma pos_lt_reset p : pos_lt p (resetPosition (incColumn p)).
Proof. unfold pos_lt, resetPosition, incColumn; simpl; lia. Qed.

Lemma dec_inc p : decColumn (incColumn p) = p.
Proof. destruct p; unfold decColumn, incColumn; simpl; f_equal; lia. Qed.

Lemma addColumn_0 p : addColumn p 0 = p.
Proof. destruct p; unfold addColumn; simpl; f_equal; lia. Qed.

Lemma addColumn_S p n : addColumn (incColumn p) n = addColumn p (S n).
Proof. destruct p; unfold addColumn, incColumn; simpl Line; simpl Column; f_equal; lia. Qed.

Lemma pos_le_addColumn p n : pos_le p (addColumn p n).
Proof. unfold pos_le, addColumn; simpl; lia. Qed.

Lemma pos_lt_addColumn p n : (0 < n)%nat -> pos_lt p (addColumn p n).
Proof. unfold pos_lt, addColumn; simpl; lia. Qed.

(** [backup] right after a read gives the rune back and never panics. *)
Lemma backup_afterRead pos r rest :
  backup (afterRead pos r rest) = Some (mkScanner pos (mkReader (r :: rest) None)).
Proof. unfold backup, afterRead, UnreadRune; cbn. now rewrite dec_inc. Qed.

(** *** The classes exclude one another *)

Lemma digit_class r :
  IsDigit U r = true ->
  IsLetter U r = false /\ IsPunct U r = false /\ IsSpace U r = false.
Proof. unfold IsDigit, IsLetter, IsPunct, IsSpace; destruct (classOf U r); intuition congruence. Qed.

Lemma letter_class r :
  IsLetter U r = true ->
  IsDigit U r = false /\ IsPunct U r = false /\ IsSpace U r = false.
Proof. unfold IsDigit, IsLetter, IsPunct, IsSpace; destruct (classOf U r); intuition congruence. Qed.

Lemma space_class r :
  IsSpace U r = true ->
  IsDigit U r = false /\ IsPunct U r = false /\ IsLetter U r = false.
Proof. unfold IsDigit, IsLetter, IsPunct, IsSpace; destruct (classOf U r); intuition congruence. Qed.

Lemma switch_class r :
  isSwitchRune r = true -> IsDigit U r = false /\ IsLetter U r = false.
Proof.
  unfold isSwitchRune; intros H.
  repeat (apply orb_true_iff in H; destruct H as [H | H]);
    apply Z.eqb_eq in H; subst r; split; reflexivity.
Qed.

Lemma digit_not_switch r : IsDigit U r = true -> isSwitchRune r = false.
Proof.
  intros H; destruct (isSwitchRune r) eqn:E; [ | reflexivity ].
  apply switch_class in E; destruct E; congruence.
Qed.

Lemma letter_not_switch r : IsLetter U r = true -> isSwitchRune r = false.
Proof.
  intros H; destruct (isSwitchRune r) eqn:E; [ | reflexivity ].
  apply switch_class in E; destruct E; congruence.
Qed.

Lemma not_switch r :
  isSwitchRune r = false ->
  (r =? 10) = false /\ (r =? 40) = false /\ (r =? 41) = false /\ (r =? 91) = false
  /\ (r =? 93) = false /\ (r =? 44) = false /\ (r =? 34) = false.
Proof.
  unfold isSwitchRune; intros H.
  repeat (apply orb_false_iff in H; destruct H as [H ?]); auto 10.
Qed.

(** *** The three loops on an arbitrary input *)

Lemma span_app f l : fst (span f l) ++ snd (span f l) = l.
Proof.
  induction l as [ | r l IH ]; simpl; [ reflexivity | ].
  destruct (f r); [ | reflexivity ].
  destruct (span f l); simpl in *; now rewrite IH.
Qed.

Lemma span_Forall f l : Forall (fun r => f r = true) (fst (span f l)).
Proof.
  induction l as [ | r l IH ]; simpl; [ constructor | ].
  destruct (f r) eqn:E; [ | constructor ].
  destruct (span f l); simpl in *; constructor; assumption.
Qed.

Lemma span_all f l rest :
  Forall (fun r => f r = true) l ->
  match rest with [] => True | c :: _ => f c = false end ->
  span f (l ++ rest) = (l, rest).
Proof.
  intros Hl Hrest; induction Hl as [ | r l Hr _ IH ]; simpl.
  - destruct rest as [ | c rest ]; simpl; [ reflexivity | now rewrite Hrest ].
  - now rewrite Hr, IH.
Qed.

(** [keyword] reads the letters at the head of the input and nothing else. *)
Lemma keyword_loop_span input : forall s pos,
  keyword_loop U s pos input =
  Some (s ++ fst (span (IsLetter U) input),
        mkScanner (addColumn pos (List.length (fst (span (IsLetter U) input))))
                  (mkReader (snd (span (IsLetter U) input)) None)).
Proof.
  induction input as [ | r rest IH ]; intros s pos; simpl.
  - unfold atEOF. now rewrite app_nil_r, addColumn_0.
  - destruct (IsLetter U r) eqn:E.
    + rewrite IH. destruct (span (IsLetter U) rest) as [a b]; simpl.
      now rewrite <- app_assoc, addColumn_S.
    + rewrite dec_inc; simpl. now rewrite app_nil_r, addColumn_0.
Qed.

Lemma integer_loop_span input : forall number pos,
  integer_loop U number pos input =
  Some (number ++ fst (span (IsDigit U) input),
        integerError U (snd (span (IsDigit U) input)),
        mkScanner (addColumn pos (List.length (fst (span (IsDigit U) input))))
                  (mkReader (snd (span (IsDigit U) input)) None)).
Proof.
  induction input as [ | r rest IH ]; intros number pos; simpl.
  - unfold atEOF. now rewrite app_nil_r, addColumn_0.
  - destruct (IsDigit U r) eqn:E.
    + destruct (digit_class r E) as (-> & -> & _); simpl.
      rewrite IH. destruct (span (IsDigit U) rest) as [a b]; simpl.
      now rewrite <- app_assoc, addColumn_S.
    + destruct (IsLetter U r || IsPunct U r) eqn:E';
        rewrite dec_inc; simpl; rewrite ?E';
        now rewrite app_nil_r, addColumn_0.
Qed.

(** [str] keeps the opening quote and the runes up to the next quote, which
    it gives back. *)
Lemma str_loop_open input : forall s pos,
  str_loop s 1 pos input =
  Some (s ++ fst (span notQuote input),
        mkScanner (addColumn pos (List.length (fst (span notQuote input))))
                  (mkReader (snd (span notQuote input)) None)).
Proof.
  unfold notQuote; induction input as [ | r rest IH ]; intros s pos; simpl.
  - unfold atEOF. now rewrite app_nil_r, addColumn_0.
  - destruct (r =? 34) eqn:E; simpl.
    + rewrite dec_inc. now rewrite app_nil_r, addColumn_0.
    + rewrite IH. destruct (span _ rest) as [a b]; simpl.
      now rewrite <- app_assoc, addColumn_S.
Qed.

Lemma str_quote pos rest :
  str (mkScanner pos (mkReader (34 :: rest) None)) =
  Some (34 :: fst (span notQuote rest),
        mkScanner (addColumn pos (S (List.length (fst (span notQuote rest)))))
                  (mkReader (snd (span notQuote rest)) None)).
Proof.
  unfold str; simpl. rewrite str_loop_open. now rewrite addColumn_S.
Qed.

Lemma span_head f r rest :
  f r = true ->
  span f (r :: rest) = (r :: fst (span f rest), snd (span f rest)).
Proof. intros H; simpl; rewrite H. now destruct (span f rest). Qed.

(** *** One call of [Scan] *)

Lemma scanned_skip pos r rest tok scan' skipped :
  blank U r = true ->
  scanned U (advance pos [r]) rest tok scan' skipped ->
  scanned U pos (r :: rest) tok scan' (r :: skipped).
Proof.
  intros Hb (H1 & H2 & H3 & H4); unfold scanned.
  split; [ simpl; now f_equal | ].
  split; [ now constructor | ].
  split; [ exact H3 | exact H4 ].
Qed.

Lemma scanned_lexeme pos v rest ty tp :
  v <> [] -> ty <> EOF ->
  (hasPosition U (mkToken ty v tp) = true -> tp = addColumn pos (List.length v)) ->
  (isInvalidWord U (mkToken ty v tp) = true -> tp = zeroPosition) ->
  scanned U pos (v ++ rest) (mkToken ty v tp)
          (mkScanner (addColumn pos (List.length v)) (mkReader rest None)) [].
Proof.
  intros Hv Hty Hp Hw; unfold scanned; simpl.
  repeat split; auto; try constructor; intros; congruence.
Qed.

Lemma scanned_single pos r rest ty :
  ty <> EOF ->
  isInvalidWord U (mkToken ty [r] (incColumn pos)) = false ->
  scanned U pos (r :: rest) (mkToken ty [r] (incColumn pos))
          (afterRead pos r rest) [].
Proof.
  intros Hty Hw; unfold scanned; simpl.
  repeat split; auto; try constructor; intros; congruence.
Qed.

(** [Scan] never panics, and what it returns is described by [scanned]. *)
Lemma Scan_loop_scanned input : forall pos,
  exists tok scan' skipped,
    Scan_loop U pos input = Some (tok, scan')
    /\ scanned U pos input tok scan' skipped.
Proof.
  induction input as [ | r rest IH ]; intros pos.
  - exists (mkToken EOF [] zeroPosition), (atEOF pos), [].
    split; [ reflexivity | ].
    unfold scanned, hasPosition; simpl; rewrite addColumn_0.
    repeat split; auto; intros; congruence.
  - cbn [Scan_loop].
    destruct (r =? 10) eqn:E10.
    { apply Z.eqb_eq in E10; subst r.
      destruct (IH (resetPosition (position (afterRead pos 10 rest))))
        as (tok & scan' & sk & Hs & Hspec).
      exists tok, scan', (10 :: sk); split; [ exact Hs | ].
      apply scanned_skip; [ reflexivity | exact Hspec ]. }
    destruct (r =? 40) eqn:E40.
    { apply Z.eqb_eq in E40; subst r. do 3 eexists; split; [ reflexivity | ].
      apply scanned_single; [ discriminate | reflexivity ]. }
    destruct (r =? 41) eqn:E41.
    { apply Z.eqb_eq in E41; subst r. do 3 eexists; split; [ reflexivity | ].
      apply scanned_single; [ discriminate | reflexivity ]. }
    destruct (r =? 91) eqn:E91.
    { apply Z.eqb_eq in E91; subst r. do 3 eexists; split; [ reflexivity | ].
      apply scanned_single; [ discriminate | reflexivity ]. }
    destruct (r =? 93) eqn:E93.
    { apply Z.eqb_eq in E93; subst r. do 3 eexists; split; [ reflexivity | ].
      apply scanned_single; [ discriminate | reflexivity ]. }
    destruct (r =? 44) eqn:E44.
    { apply Z.eqb_eq in E44; subst r. do 3 eexists; split; [ reflexivity | ].
      apply scanned_single; [ discriminate | reflexivity ]. }
    destruct (r =? 34) eqn:E34.
    { apply Z.eqb_eq in E34; subst r.
      rewrite backup_afterRead, str_quote.
      do 3 eexists; split; [ reflexivity | ].
      rewrite <- (span_app notQuote rest) at 1.
      apply (scanned_lexeme pos (34 :: fst (span notQuote rest)));
        [ discriminate | discriminate | reflexivity | discriminate ]. }
    destruct (IsSpace U r) eqn:Es.
    { destruct (IH (position (afterRead pos r rest)))
        as (tok & scan' & sk & Hs & Hspec).
      exists tok, scan', (r :: sk); split; [ exact Hs | ].
      apply scanned_skip; [ unfold blank; now rewrite Es, orb_true_r | ].
      simpl; now rewrite E10. }
    destruct (IsDigit U r) eqn:Ed.
    { rewrite backup_afterRead. unfold integer; cbn [position reader buf].
      rewrite integer_loop_span, (span_head _ _ _ Ed); cbn [fst snd]; rewrite app_nil_l.
      destruct (digit_class r Ed) as (Hl & _).
      destruct (integerError U (snd (span (IsDigit U) rest)));
        do 3 eexists; (split; [ reflexivity | ]);
        rewrite <- (span_app (IsDigit U) rest) at 1;
        apply (scanned_lexeme pos (r :: fst (span (IsDigit U) rest)));
        try discriminate; try reflexivity;
        unfold isInvalidWord; simpl; rewrite Hl; discriminate. }
    destruct (IsLetter U r) eqn:El.
    { rewrite backup_afterRead. unfold keyword; cbn [position reader buf].
      rewrite keyword_loop_span, (span_head _ _ _ El); cbn [fst snd]; rewrite app_nil_l.
      destruct (isValidKeyword (r :: fst (span (IsLetter U) rest)));
        do 3 eexists; (split; [ reflexivity | ]);
        rewrite <- (span_app (IsLetter U) rest) at 1;
        apply (scanned_lexeme pos (r :: fst (span (IsLetter U) rest)));
        try discriminate; try reflexivity.
      unfold hasPosition, isInvalidWord; simpl; rewrite El; discriminate. }
    do 3 eexists; split; [ reflexivity | ].
    apply scanned_single; [ discriminate | ].
    unfold isInvalidWord; simpl; now rewrite El.
Qed.

Lemma Scan_scanned scan :
  exists tok scan' skipped,
    Scan U scan = Some (tok, scan')
    /\ scanned U (position scan) (buf (reader scan)) tok scan' skipped.
Proof. apply Scan_loop_scanned. Qed.

(** *** Positions only grow *)

Lemma advance_app p l1 l2 : advance p (l1 ++ l2) = advance (advance p l1) l2.
Proof. apply fold_left_app. Qed.

Lemma advance_columns l : forall p,
  ~ In 10 l -> advance p l = addColumn p (List.length l).
Proof.
  induction l as [ | r l IH ]; intros p Hn.
  - simpl; now rewrite addColumn_0.
  - change (advance p (r :: l))
      with (advance (if r =? 10 then resetPosition (incColumn p) else incColumn p) l).
    destruct (Z.eqb_spec r 10) as [-> | _ ]; [ exfalso; apply Hn; now left | ].
    rewrite IH by (intros H; apply Hn; now right).
    apply addColumn_S.
Qed.

Lemma pos_le_advance l : forall p, pos_le p (advance p l).
Proof.
  induction l as [ | r l IH ]; intros p; [ apply pos_le_refl | ].
  change (advance p (r :: l))
    with (advance (if r =? 10 then resetPosition (incColumn p) else incColumn p) l).
  eapply pos_le_trans; [ | apply IH ].
  apply pos_lt_le; destruct (r =? 10); [ apply pos_lt_reset | apply pos_lt_incColumn ].
Qed.

Lemma scanned_le pos input tok scan' skipped :
  scanned U pos input tok scan' skipped -> pos_le pos (position scan').
Proof.
  intros (_ & _ & -> & _).
  eapply pos_le_trans; [ apply pos_le_advance | apply pos_le_addColumn ].
Qed.

Lemma scanned_lt pos input tok scan' skipped :
  scanned U pos input tok scan' skipped ->
  Type_ tok <> EOF -> pos_lt pos (position scan').
Proof.
  intros (_ & _ & -> & _ & Hv & _) Hty.
  eapply pos_le_lt_trans; [ apply pos_le_advance | apply pos_lt_addColumn ].
  specialize (Hv Hty). destruct (Value tok); [ congruence | simpl; lia ].
Qed.

Lemma scanned_shorter pos input tok scan' skipped :
  scanned U pos input tok scan' skipped ->
  Type_ tok <> EOF ->
  (List.length (buf (reader scan')) < List.length input)%nat.
Proof.
  intros (-> & _ & _ & _ & Hv & _) Hty. specialize (Hv Hty).
  rewrite !length_app. destruct (Value tok); [ congruence | simpl; lia ].
Qed.

Lemma TokenType_eqb_eq a b : TokenType_eqb a b = true <-> a = b.
Proof. destruct a, b; simpl; split; intros; congruence. Qed.

(** *** A whole pass *)

(** With one more call than there are runes, the pass ends: it returns the
    tokens, the last of which is [EOF]; the tokens that carry a position are
    in strictly increasing order, all after the position at the start. *)
Lemma scanAll_sorted fuel : forall scan,
  (List.length (buf (reader scan)) < fuel)%nat ->
  exists toks,
    scanAll U fuel scan = Some toks
    /\ (exists front, toks = front ++ [mkToken EOF [] zeroPosition])
    /\ Forall (fun q => pos_lt (position scan) q)
              (map Position_ (filter (hasPosition U) toks))
    /\ StronglySorted pos_lt (map Position_ (filter (hasPosition U) toks)).
Proof.
  induction fuel as [ | fuel IH ]; intros scan Hlen; [ lia | ].
  destruct (Scan_scanned scan) as (tok & scan' & sk & Hs & Hspec).
  cbn [scanAll]; rewrite Hs.
  destruct (TokenType_eqb (Type_ tok) EOF) eqn:Ety.
  - exists [tok]; split; [ reflexivity | ].
    apply TokenType_eqb_eq in Ety.
    assert (Hf : filter (hasPosition U) [tok] = []).
    { unfold hasPosition; simpl. rewrite Ety; reflexivity. }
    rewrite Hf; simpl; repeat split; try constructor.
    exists []; simpl. destruct Hspec as (_ & _ & _ & He & _).
    destruct (He Ety) as (Hv & _ & Hp). destruct tok; simpl in *; congruence.
  - assert (Hty : Type_ tok <> EOF).
    { intros H; apply TokenType_eqb_eq in H; congruence. }
    assert (Hlt := scanned_lt _ _ _ _ _ Hspec Hty).
    assert (Hsh := scanned_shorter _ _ _ _ _ Hspec Hty).
    destruct (IH scan') as (toks & Ht & (front & Hfront) & Hall & Hsorted); [ lia | ].
    exists (tok :: toks); rewrite Ht; split; [ reflexivity | ].
    split; [ exists (tok :: front); now rewrite Hfront | ].
    assert (Hall' : Forall (fun q => pos_lt (position scan) q)
                           (map Position_ (filter (hasPosition U) toks))).
    { eapply Forall_impl; [ | exact Hall ].
      intros q Hq; eapply pos_lt_le_trans; [ exact Hlt | now apply pos_lt_le ]. }
    cbn [filter]. destruct (hasPosition U tok) eqn:Ehp; [ | now split ].
    destruct Hspec as (_ & _ & _ & _ & _ & Hp & _). specialize (Hp Ehp).
    cbn [map]; rewrite Hp; split; constructor; auto.
Qed.

(** *** Runs of digits and of letters *)

Lemma Scan_not_switch pos r rest :
  isSwitchRune r = false -> IsSpace U r = false ->
  Scan_loop U pos (r :: rest) =
  if IsDigit U r then
    match integer U (mkScanner pos (mkReader (r :: rest) None)) with
    | None => None
    | Some (num, true, scan2) => Some (mkToken INVALID num (position scan2), scan2)
    | Some (num, false, scan2) => Some (mkToken INT num (position scan2), scan2)
    end
  else if IsLetter U r then
    match keyword U (mkScanner pos (mkReader (r :: rest) None)) with
    | None => None
    | Some (kw, scan2) =>
        if isValidKeyword kw
        then Some (mkToken KEYWORD kw (position scan2), scan2)
        else Some (mkToken INVALID kw zeroPosition, scan2)
    end
  else Some (mkToken INVALID [r] (incColumn pos), afterRead pos r rest).
Proof.
  intros Hsw Hsp. destruct (not_switch r Hsw) as (E1 & E2 & E3 & E4 & E5 & E6 & E7).
  cbn [Scan_loop]. rewrite E1, E2, E3, E4, E5, E6, E7, Hsp, backup_afterRead.
  reflexivity.
Qed.

Lemma Scan_digits pos lr ds rest :
  ds <> [] -> Forall (fun r => IsDigit U r = true) ds ->
  match rest with [] => True | c :: _ => IsDigit U c = false end ->
  Scan U (mkScanner pos (mkReader (ds ++ rest) lr)) =
  Some (mkToken (if integerError U rest then INVALID else INT) ds
                (addColumn pos (List.length ds)),
        mkScanner (addColumn pos (List.length ds)) (mkReader rest None)).
Proof.
  intros Hne Hds Hrest. destruct ds as [ | d ds ]; [ congruence | ].
  assert (Hd : IsDigit U d = true) by now inversion Hds.
  unfold Scan; cbn [position reader buf List.app].
  rewrite Scan_not_switch;
    [ | now apply digit_not_switch | now destruct (digit_class d Hd) as (_ & _ & ?) ].
  rewrite Hd. unfold integer; cbn [position reader buf].
  rewrite integer_loop_span.
  change (d :: ds ++ rest) with ((d :: ds) ++ rest).
  rewrite (span_all (IsDigit U) (d :: ds) rest Hds Hrest); cbn [fst snd List.app].
  now destruct (integerError U rest).
Qed.

Lemma Scan_letters pos lr w rest :
  w <> [] -> Forall (fun r => IsLetter U r = true) w ->
  match rest with [] => True | c :: _ => IsLetter U c = false end ->
  Scan U (mkScanner pos (mkReader (w ++ rest) lr)) =
  Some (if isValidKeyword w
        then mkToken KEYWORD w (addColumn pos (List.length w))
        else mkToken INVALID w zeroPosition,
        mkScanner (addColumn pos (List.length w)) (mkReader rest None)).
Proof.
  intros Hne Hw Hrest. destruct w as [ | l w ]; [ congruence | ].
  assert (Hl : IsLetter U l = true) by now inversion Hw.
  destruct (letter_class l Hl) as (Hd & _ & Hsp).
  unfold Scan; cbn [position reader buf List.app].
  rewrite Scan_not_switch; [ | now apply letter_not_switch | exact Hsp ].
  rewrite Hd, Hl. unfold keyword; cbn [position reader buf].
  rewrite keyword_loop_span.
  change (l :: w ++ rest) with ((l :: w) ++ rest).
  rewrite (span_all (IsLetter U) (l :: w) rest Hw Hrest); cbn [fst snd List.app].
  now destruct (isValidKeyword (l :: w)).
Qed.

(** A pass over an input that is one token. *)
Lemma scanAll_one_token fuel scan tok pos :
  Scan U scan = Some (tok, mkScanner pos (mkReader [] None)) ->
  Type_ tok <> EOF ->
  scanAll U (S (S fuel)) scan = Some [tok; mkToken EOF [] zeroPosition].
Proof.
  intros Hs Hty. cbn [scanAll]. rewrite Hs.
  destruct (TokenType_eqb (Type_ tok) EOF) eqn:E;
    [ apply TokenType_eqb_eq in E; congruence | reflexivity ].
Qed.

Lemma isValidKeyword_In w : isValidKeyword w = true <-> In w validKeywords.
Proof.
  unfold isValidKeyword; rewrite existsb_exists; split.
  - intros (kw & Hin & H).
    destruct (list_eq_dec Z.eq_dec w kw); [ now subst | discriminate ].
  - intros H; exists w; split; [ exact H | ].
    destruct (list_eq_dec Z.eq_dec w w); congruence.
Qed.

(** The keywords are words of ASCII letters. *)
Lemma validKeywords_letters w :
  In w validKeywords -> w <> [] /\ Forall (fun r => IsLetter U r = true) w.
Proof.
  assert (H : forallb (fun w => negb (Nat.eqb (List.length w) 0)
                                && forallb (IsLetter U) w) validKeywords = true)
    by reflexivity.
  rewrite forallb_forall in H. intros Hin. specialize (H w Hin).
  apply andb_true_iff in H; destruct H as [Hn Hf]. split.
  - intros ->; discriminate.
  - rewrite forallb_forall in Hf. now apply Forall_forall.
Qed.

End Facts.

End ScannerFacts.

(* ================================================================== *)
(** * Part III: the claims about the scanner *)
(* ================================================================== *)

Import Translator ScannerSpec ScannerFacts.

(** C3.  The claim is that a quoted string is one [STRING] token whose value
    has both quotes, the closing quote being consumed.  [str] gives the closing
    quote back and leaves it out of the value: on the word [name] between
    quotes the pass returns a [STRING] token with five runes, the opening
    quote and the word, at column 5, then a second [STRING] token that is the
    closing quote alone, then [EOF].  On an
    input that ends before a second quote the value is the text read so far,
    as the claim says. *)
Theorem string_token_lacks_closing_quote (U : rune -> RuneClass) :
  testScanner U (34 :: runes "name" ++ [34]) =
    Some [ mkToken STRING (34 :: runes "name") (mkPosition 1 5);
           mkToken STRING [34] (mkPosition 1 6);
           EOFToken ]
  /\ testScanner U (34 :: runes "name") =
    Some [ mkToken STRING (34 :: runes "name") (mkPosition 1 5); EOFToken ].
Proof. split; reflexivity. Qed.

(** C4.  The claim is that every [INVALID] token carries the text and its
    position, and that scanning goes on.  The token of a word that is no
    keyword is built without a position: on [InvalidKeyword] the scanner stops
    at line 1, column 14, and the token carries the zero position.  The two
    other kinds of [INVALID] token carry the position, and the pass goes on
    after each of them. *)
Theorem invalid_word_has_no_position (U : rune -> RuneClass) :
  Scan U (NewScanner (runes "InvalidKeyword")) =
    Some (mkToken INVALID (runes "InvalidKeyword") zeroPosition,
          mkScanner (mkPosition 1 14) (mkReader [] None))
  /\ testScanner U (runes "123. $ Foo Let") =
    Some [ mkToken INVALID (runes "123") (mkPosition 1 3);
           mkToken INVALID (runes ".") (mkPosition 1 4);
           mkToken INVALID (runes "$") (mkPosition 1 6);
           mkToken INVALID (runes "Foo") zeroPosition;
           mkToken KEYWORD (runes "Let") (mkPosition 1 14);
           EOFToken ].
Proof. split; reflexivity. Qed.

(** C6.  A run of digits [ds] followed by a blank or by the end of the input
    is one [INT] token whose value is [ds]; a pass over [ds] alone returns that
    token and [EOF].  When a letter or a punctuation rune [c] follows the run,
    the token is [INVALID] with the value [ds], [c] is left unread, and the
    next call starts its token with [c]. *)
Theorem integer_tokens (U : rune -> RuneClass) (ds : list rune) :
  ds <> [] ->
  Forall (fun r => IsDigit U r = true) ds ->
  (forall pos lr rest,
      match rest with [] => True | c :: _ => blank U c = true end ->
      Scan U (mkScanner pos (mkReader (ds ++ rest) lr)) =
      Some (mkToken INT ds (addColumn pos (List.length ds)),
            mkScanner (addColumn pos (List.length ds)) (mkReader rest None)))
  /\ testScanner U ds =
     Some [ mkToken INT ds (mkPosition 1 (Z.of_nat (List.length ds))); EOFToken ]
  /\ (forall pos lr c rest,
      IsLetter U c || IsPunct U c = true ->
      Scan U (mkScanner pos (mkReader (ds ++ c :: rest) lr)) =
      Some (mkToken INVALID ds (addColumn pos (List.length ds)),
            mkScanner (addColumn pos (List.length ds)) (mkReader (c :: rest) None))
      /\ exists tok scan' v,
          Scan U (mkScanner (addColumn pos (List.length ds))
                            (mkReader (c :: rest) None)) = Some (tok, scan')
          /\ Value tok = c :: v).
Proof.
  intros Hne Hds.
  assert (Hblank : forall pos lr rest,
             match rest with [] => True | c :: _ => blank U c = true end ->
             Scan U (mkScanner pos (mkReader (ds ++ rest) lr)) =
             Some (mkToken INT ds (addColumn pos (List.length ds)),
                   mkScanner (addColumn pos (List.length ds)) (mkReader rest None))).
  { intros pos lr rest Hrest.
    assert (Hc : match rest with
                 | [] => True
                 | c :: _ => IsDigit U c = false /\ IsLetter U c || IsPunct U c = false
                 end).
    { destruct rest as [ | c rest ]; [ exact I | ].
      unfold blank in Hrest; apply orb_true_iff in Hrest.
      destruct Hrest as [H | H].
      - apply Z.eqb_eq in H; subst c; split; reflexivity.
      - destruct (space_class U c H) as (-> & -> & ->); split; reflexivity. }
    rewrite Scan_digits; auto.
    - destruct rest as [ | c rest ]; [ reflexivity | ].
      simpl; destruct Hc as (_ & ->); reflexivity.
    - destruct rest as [ | c rest ]; [ exact I | apply Hc ]. }
  split; [ exact Hblank | split ].
  - unfold testScanner.
    destruct ds as [ | d ds' ]; [ congruence | ].
    cbn [List.length].
    apply scanAll_one_token
      with (pos := addColumn (mkPosition 1 0) (S (List.length ds')));
      [ | discriminate ].
    unfold NewScanner.
    rewrite <- (app_nil_r (d :: ds')) at 1.
    rewrite (Hblank (mkPosition 1 0) None [] I).
    reflexivity.
  - intros pos lr c rest Hc.
    assert (Hnd : IsDigit U c = false).
    { unfold IsDigit, IsLetter, IsPunct in *; destruct (classOf U c);
        simpl in Hc; congruence. }
    split.
    + rewrite Scan_digits; auto. simpl; now rewrite Hc.
    + destruct (Scan_scanned U (mkScanner (addColumn pos (List.length ds))
                                          (mkReader (c :: rest) None)))
        as (tok & scan' & sk & Hs & Hin & Hsk & _ & Heof & Hv & _).
      cbn [position reader buf] in Hin.
      exists tok, scan'.
      assert (Hnb : blank U c = false).
      { unfold blank. destruct (Z.eqb_spec c 10) as [-> | _ ]; [ discriminate Hc | ].
        unfold IsSpace, IsLetter, IsPunct in *; destruct (classOf U c);
          simpl in *; congruence. }
      destruct sk as [ | b sk ].
      * destruct (Value tok) as [ | x v ] eqn:Ev.
        -- exfalso. destruct (TokenType_eqb (Type_ tok) EOF) eqn:E.
           ++ apply TokenType_eqb_eq in E. destruct (Heof E) as (_ & Hb & _).
              rewrite Hb in Hin; discriminate.
           ++ apply Hv; [ | reflexivity ].
              intros E'; apply TokenType_eqb_eq in E'; congruence.
        -- exists v; split; [ exact Hs | ]. simpl in Hin; congruence.
      * exfalso. simpl in Hin. inversion Hin; subst b.
        inversion Hsk; congruence.
Qed.

Lemma integer_tokens_witness :
  runes "1454" <> []
  /\ Forall (fun r => IsDigit noTable r = true) (runes "1454")
  /\ testScanner noTable (runes "1454") =
     Some [ mkToken INT (runes "1454") (mkPosition 1 4); EOFToken ].
Proof.
  assert (H1 : runes "1454" <> []) by discriminate.
  assert (H2 : Forall (fun r => IsDigit noTable r = true) (runes "1454"))
    by (repeat constructor).
  split; [ exact H1 | split; [ exact H2 | ] ].
  exact (proj1 (proj2 (integer_tokens noTable (runes "1454") H1 H2))).
Defined.

(** C7.  The vocabulary of the scanner is the list of the 33 words of the
    claim; a pass over one of them returns one [KEYWORD] token with that word
    as its value, and a pass over any other word of letters returns one
    [INVALID] token. *)
Theorem keyword_closure (U : rune -> RuneClass) :
  validKeywords =
    map runes
      [ "Let"; "When"; "If"; "Pay"; "Assert"; "Close"; "Deposit"; "Notify";
        "Choice"; "ChoiceId"; "Bound"; "AvailableMoney"; "Constant";
        "NegValue"; "AddValue"; "SubValue"; "MulValue"; "DivValue";
        "ChoiceValue"; "TimeIntervalValue"; "UseValue"; "Cond"; "AndObs";
        "OrObs"; "NotObs"; "ChoseSomething"; "ValueGE"; "ValueGT"; "ValueLE";
        "ValueLT"; "ValueEQ"; "TrueObs"; "FalseObs" ]%string
  /\ (forall w, In w validKeywords ->
        testScanner U w =
        Some [ mkToken KEYWORD w (mkPosition 1 (Z.of_nat (List.length w)));
               EOFToken ])
  /\ (forall w, w <> [] -> Forall (fun r => IsLetter U r = true) w ->
        ~ In w validKeywords ->
        exists p, testScanner U w = Some [ mkToken INVALID w p; EOFToken ]).
Proof.
  assert (Hword : forall w, w <> [] -> Forall (fun r => IsLetter U r = true) w ->
            testScanner U w =
            Some [ if isValidKeyword w
                   then mkToken KEYWORD w (mkPosition 1 (Z.of_nat (List.length w)))
                   else mkToken INVALID w zeroPosition;
                   EOFToken ]).
  { intros w Hne Hw. unfold testScanner.
    destruct w as [ | l w' ]; [ congruence | ].
    cbn [List.length].
    apply scanAll_one_token with (pos := addColumn (mkPosition 1 0) (S (List.length w'))).
    - unfold NewScanner. rewrite <- (app_nil_r (l :: w')) at 1.
      rewrite Scan_letters; auto.
    - destruct (isValidKeyword (l :: w')); discriminate. }
  split; [ reflexivity | split ].
  - intros w Hin. destruct (validKeywords_letters U w Hin) as (Hne & Hw).
    rewrite (Hword w Hne Hw).
    apply isValidKeyword_In in Hin. now rewrite Hin.
  - intros w Hne Hw Hnin. exists zeroPosition. rewrite (Hword w Hne Hw).
    destruct (isValidKeyword w) eqn:E; [ | reflexivity ].
    apply isValidKeyword_In in E; contradiction.
Qed.

Lemma keyword_closure_witness :
  In (runes "TimeIntervalValue") validKeywords
  /\ testScanner noTable (runes "TimeIntervalValue") =
     Some [ mkToken KEYWORD (runes "TimeIntervalValue") (mkPosition 1 17);
            EOFToken ].
Proof.
  assert (H : In (runes "TimeIntervalValue") validKeywords).
  { unfold validKeywords; apply in_map; simpl; tauto. }
  split; [ exact H | ].
  exact (proj1 (proj2 (keyword_closure noTable)) (runes "TimeIntervalValue") H).
Defined.

(** C8, as stated, fails: the [EOF] token is built without a position, so the
    pass over a single parenthesis returns positions (1,1) and then (0,0). *)
Lemma positions_decrease_at_EOF :
  testScanner noTable (runes "(") =
    Some [ mkToken PARENS_L (runes "(") (mkPosition 1 1); EOFToken ]
  /\ ~ pos_le (mkPosition 1 1) (Position_ EOFToken).
Proof.
  split; [ reflexivity | ].
  unfold pos_le; simpl; lia.
Qed.

(** C8, amended.  A pass over any input ends with the [EOF] token, which
    carries the zero position, and the positions of the tokens before it,
    those of the words that are no keywords apart, are strictly increasing in
    the lexicographic order.  A newline that [Scan] reads between two tokens
    sets the column to 0 and adds 1 to the line. *)
Theorem positions_increase (U : rune -> RuneClass) :
  (forall input, exists toks front,
      testScanner U input = Some toks
      /\ toks = front ++ [EOFToken]
      /\ StronglySorted pos_lt (map Position_ (filter (hasPosition U) toks)))
  /\ (forall pos rest lr lr',
      Scan U (mkScanner pos (mkReader (10 :: rest) lr)) =
      Scan U (mkScanner (mkPosition (Line pos + 1) 0) (mkReader rest lr'))).
Proof.
  split.
  - intros input.
    destruct (scanAll_sorted U (S (List.length input)) (NewScanner input))
      as (toks & Ht & (front & Hfront) & _ & Hsorted); [ simpl; lia | ].
    now exists toks, front.
  - reflexivity.
Qed.

(** C9, as stated, fails: on an input that is one blank, [Scan] reads the
    blank, which is at line 1, column 1, and returns the [EOF] token with the
    zero position. *)
Lemma eof_token_position :
  exists tok scan',
    Scan noTable (NewScanner (runes " ")) = Some (tok, scan')
    /\ buf (reader scan') = []
    /\ position scan' = mkPosition 1 1
    /\ Position_ tok = mkPosition 0 0.
Proof. do 2 eexists; repeat split. Qed.

(** C9, amended.  [Scan] never panics.  It skips blanks, takes the runes of
    the value of the token and leaves the rest; a token other than [EOF] and
    than a word that is no keyword carries the position of the scanner after
    the call, which is the position of the last rune of the value: the column
    of the last skipped rune plus the length of the value and, when the value
    has no newline, the position counted from the start over the runes read,
    a newline starting a line at column 0.  The [EOF] token carries the zero
    position.  The pass over the two lines [( )] and [[ ]] returns the tokens of
    the claim. *)
Theorem token_position_is_last_rune (U : rune -> RuneClass) :
  (forall scan, exists tok scan' skipped,
      Scan U scan = Some (tok, scan')
      /\ buf (reader scan) = skipped ++ Value tok ++ buf (reader scan')
      /\ Forall (fun r => blank U r = true) skipped
      /\ (hasPosition U tok = true ->
          Position_ tok = position scan'
          /\ Position_ tok =
             addColumn (advance (position scan) skipped) (List.length (Value tok))
          /\ (~ In 10 (Value tok) ->
              Position_ tok = advance (position scan) (skipped ++ Value tok)))
      /\ (Type_ tok = EOF -> Position_ tok = zeroPosition))
  /\ testScanner U [40; 32; 41; 10; 91; 32; 93] =
     Some [ mkToken PARENS_L (runes "(") (mkPosition 1 1);
            mkToken PARENS_R (runes ")") (mkPosition 1 3);
            mkToken SQUARE_L (runes "[") (mkPosition 2 1);
            mkToken SQUARE_R (runes "]") (mkPosition 2 3);
            EOFToken ].
Proof.
  split; [ | reflexivity ].
  intros scan.
  destruct (Scan_scanned U scan)
    as (tok & scan' & sk & Hs & Hin & Hsk & Hpos & Heof & _ & Hp & _).
  exists tok, scan', sk. repeat split; auto.
  - now rewrite (Hp H).
  - intros Hn. rewrite (Hp H), Hpos, advance_app.
    symmetry; now apply advance_columns.
  - intros H; now destruct (Heof H) as (_ & _ & ?).
Qed.

Lemma token_position_is_last_rune_witness :
  hasPosition noTable (mkToken INT (runes "12") (mkPosition 2 2)) = true
  /\ exists scan',
      Scan noTable (NewScanner (10 :: runes "12")) =
      Some (mkToken INT (runes "12") (mkPosition 2 2), scan')
      /\ mkPosition 2 2 = advance (mkPosition 1 0) (10 :: runes "12").
Proof.
  split; [ reflexivity | ].
  destruct (proj1 (token_position_is_last_rune noTable)
                  (NewScanner (10 :: runes "12")))
    as (tok & scan' & sk & Hs & _).
  exists scan'. split; [ | reflexivity ].
  vm_compute in Hs. vm_compute.
  injection Hs as Ht Hscan. rewrite <- Hscan. reflexivity.
Defined.

(* ================================================================== *)
(** * Part IV: the JSON form of the contracts *)
(* ================================================================== *)

Module JsonFacts.

Import Json.
Open Scope string_scope.

Lemma digits_unsigned d :
  d <> Nil -> digits (NilZero.string_of_uint d) = Some (Z.of_uint d).
Proof. intros H; unfold digits; now rewrite NilZero.usu. Qed.

Lemma SetString_unsigned d :
  d <> Nil -> SetString (NilZero.string_of_uint d) = Some (Z.of_uint d).
Proof.
  intros H; rewrite <- (digits_unsigned d H).
  destruct d; [ congruence | reflexivity .. ].
Qed.

(** The numeral of [n] reads back as [n], whatever its size. *)
Lemma SetString_decimal n : SetString (decimal n) = Some n.
Proof.
  destruct n as [ | p | p ]; [ reflexivity | | ].
  - unfold decimal; cbn [Z.to_int NilZero.string_of_int].
    rewrite SetString_unsigned by apply DecimalPos.Unsigned.to_uint_nonnil.
    unfold Z.of_uint; now rewrite DecimalPos.Unsigned.of_to.
  - unfold decimal; cbn [Z.to_int NilZero.string_of_int SetString].
    rewrite digits_unsigned by apply DecimalPos.Unsigned.to_uint_nonnil.
    unfold Z.of_uint; now rewrite DecimalPos.Unsigned.of_to.
Qed.

End JsonFacts.

Import Json Language.

(** C5.  A [Constant] becomes a number of the document, whose text is what
    [Constant.MarshalJSON] returns: the base-10 numeral of the integer, which
    [SetString], and so [SetConstant], reads back as the same integer whatever
    its size, as for the numeral of [2^64 + 1].  The contract of the claim is
    marshalled to the text of the claim. *)
Theorem constant_is_bare_numeral :
  (forall i : Z,
      encode_value (Constant i) = JNumber i
      /\ render (encode_value (Constant i)) = Constant_MarshalJSON i
      /\ SetString (Constant_MarshalJSON i) = Some i
      /\ SetConstant (Constant_MarshalJSON i) = Some (Constant i))
  /\ render (encode_value (Constant (2 ^ 64 + 1))) = "18446744073709551617"%string
  /\ Marshal (Let "Number" (Constant 1) Close) =
     dq "{'let':'Number','be':1,'then':'close'}".
Proof.
  split; [ | split; reflexivity ].
  intros i. unfold SetConstant, Constant_MarshalJSON.
  rewrite JsonFacts.SetString_decimal. repeat split.
Qed.

(** C10.  In the document of a [Pay] contract the field [to] is an object
    with the single key [Party], whose value is the document of the party of
    the payee; the contract of [TestTypes_PayContract] is marshalled to the
    text that the test expects. *)
Theorem pay_to_has_key_Party :
  (forall (a : AccountId) (p : Party) (t : Token) (v : Value) (k : Contract),
      encode_contract (Pay a (mkPayee p) t v k) =
      JObject [ ("from_account", encode_party a);
                ("to", JObject [ ("Party", encode_party p) ]);
                ("token", encode_token t);
                ("pay", encode_value v);
                ("then", encode_contract k) ]%string)
  /\ render (encode_payee (mkPayee (Role "creditor"))) =
     dq "{'Party':{'role_token':'creditor'}}"
  /\ Marshal (Pay (Role "debtor") (mkPayee (Role "creditor")) Ada
                  (Constant 5000000) Close) =
     dq "{'from_account':{'role_token':'debtor'},'to':{'Party':{'role_token':'creditor'}},'token':{'currency_symbol':'','token_name':''},'pay':5000000,'then':'close'}".
Proof. repeat split. Qed.

(** C2.  The claim is that the [When] contract below is marshalled under the
    keys [when], [timeout] and [timeout_continuation], each case under [case]
    and [then].  The structs [When] and [Case] have no tags, so the keys are
    the names of their fields, and the third field of [Case] is written as
    [null].  A [Bound] is written with its upper bound under [from] and its
    lower bound under [to], as the claim says. *)
Theorem when_is_marshalled_under_field_names :
  Marshal (When [ mkCase (Choice (mkChoiceId "option" (Role "creditor"))
                                 [ mkBound 3 2 ])
                         Close ]
                1666078977926 Close) =
    dq "{'Cases':[{'Case':null,'Action':{'for_choice':{'choice_name':'option','choice_owner':{'role_token':'creditor'}},'choose_between':[{'from':3,'to':2}]},'Contract':'close'}],'Timeout':1666078977926,'Continue':'close'}"
  /\ Marshal (When [ mkCase (Choice (mkChoiceId "option" (Role "creditor"))
                                    [ mkBound 3 2 ])
                            Close ]
                   1666078977926 Close) <>
    dq "{'when':[{'case':{'for_choice':{'choice_name':'option','choice_owner':{'role_token':'creditor'}},'choose_between':[{'from':3,'to':2}]},'then':'close'}],'timeout':1666078977926,'timeout_continuation':'close'}"
  /\ (forall u l : Z,
      encode_bound (mkBound u l) = JObject [ ("from", JNumber u); ("to", JNumber l) ]%string)
  /\ (forall (cs : list Case) (t : Z) (k : Contract),
      encode_contract (When cs t k) =
      JObject [ ("Cases", JArray (map encode_case cs)); ("Timeout", JNumber t);
                ("Continue", encode_contract k) ]%string).
Proof.
  split; [ reflexivity | split; [ | split; reflexivity ] ].
  vm_compute; discriminate.
Qed.

(* ------------------------------------------------------------------ *)
(** ** Reading back what was written *)

Module CodecFacts.

Import Codec.
Open Scope string_scope.

Scheme Value_mut := Induction for Value Sort Prop
  with Observation_mut := Induction for Observation Sort Prop.
Combined Scheme Value_Observation_ind from Value_mut, Observation_mut.

(** Induction on a document, with the hypothesis for the items of an array
    and for the values of the fields of an object. *)
Lemma json_nested_ind (P : json -> Prop) :
  P JNull ->
  (forall b, P (JBool b)) ->
  (forall n, P (JNumber n)) ->
  (forall s, P (JString s)) ->
  (forall items, Forall P items -> P (JArray items)) ->
  (forall fields, Forall (fun kv => P (snd kv)) fields -> P (JObject fields)) ->
  forall d, P d.
Proof.
  intros Hnull Hbool Hnum Hstr Harr Hobj.
  fix IH 1. intros [ | b | n | s | items | fields ].
  - exact Hnull.
  - apply Hbool.
  - apply Hnum.
  - apply Hstr.
  - apply Harr. induction items as [ | x items IHitems ]; constructor.
    + apply IH.
    + exact IHitems.
  - apply Hobj. induction fields as [ | [k v] fields IHfields ]; constructor.
    + apply IH.
    + exact IHfields.
Qed.

Ltac split_andb :=
  repeat match goal with
         | H : (_ && _)%bool = true |- _ =>
             apply andb_true_iff in H; destruct H
         end.

Ltac eqb_subst :=
  repeat match goal with
         | H : (?a =? _)%string = true |- _ => apply String.eqb_eq in H; subst a
         end.

(** *** The leaves *)

Lemma decode_encode_party p :
  inTable_party p = true -> decode_party (encode_party p) = Some p.
Proof. destruct p; [ discriminate | reflexivity ]. Qed.

Lemma decode_encode_token t : decode_token (encode_token t) = Some t.
Proof. now destruct t. Qed.

Lemma decode_encode_choiceId c :
  inTable_choiceId c = true -> decode_choiceId (encode_choiceId c) = Some c.
Proof.
  destruct c as [n o]; simpl; intros H. now rewrite (decode_encode_party o H).
Qed.

Lemma decode_encode_bound b :
  inTable_bound b = true -> decode_bound (encode_bound b) = Some b.
Proof.
  destruct b as [u l]; unfold inTable_bound; intros H; split_andb.
  cbn [encode_bound decode_bound].
  repeat match goal with H : _ = true |- _ => rewrite H; clear H end.
  reflexivity.
Qed.

Lemma decode_encode_bounds bs :
  forallb inTable_bound bs = true ->
  traverse decode_bound (map encode_bound bs) = Some bs.
Proof.
  induction bs as [ | b bs IH ]; [ reflexivity | ].
  cbn [forallb]; intros H; split_andb.
  cbn [map traverse]. rewrite decode_encode_bound, IH by assumption. reflexivity.
Qed.

Lemma encode_decode_party d p : decode_party d = Some p -> encode_party p = d.
Proof.
  destruct d as [ | | | | | [ | [k [ | | | n | | ]] [ | ? ?] ] ]; try discriminate.
  simpl. destruct (k =? "role_token") eqn:E; [ | discriminate ].
  intros H; injection H as <-. eqb_subst. reflexivity.
Qed.

Lemma encode_decode_token d t : decode_token d = Some t -> encode_token t = d.
Proof.
  destruct d as [ | | | | | [ | [k1 [ | | | s | | ]]
                               [ | [k2 [ | | | n | | ]] [ | ? ?] ] ] ];
    try discriminate.
  simpl. destruct ((k1 =? "currency_symbol") && (k2 =? "token_name"))%bool eqn:E;
    [ | discriminate ].
  intros H; injection H as <-. split_andb; eqb_subst. reflexivity.
Qed.

Lemma encode_decode_choiceId d c :
  decode_choiceId d = Some c -> encode_choiceId c = d.
Proof.
  destruct d as [ | | | | | [ | [k1 [ | | | n | | ]] [ | [k2 o] [ | ? ?] ] ] ];
    try discriminate.
  simpl. destruct ((k1 =? "choice_name") && (k2 =? "choice_owner"))%bool eqn:E;
    [ | discriminate ].
  destruct (decode_party o) as [ p | ] eqn:Ep; [ | discriminate ].
  intros H; injection H as <-. split_andb; eqb_subst.
  simpl. now rewrite (encode_decode_party o p Ep).
Qed.

Lemma encode_decode_payee d p : decode_payee d = Some p -> encode_payee p = d.
Proof.
  destruct d as [ | | | | | [ | [k o] [ | ? ?] ] ]; try discriminate.
  simpl. destruct (k =? "Party") eqn:E; [ | discriminate ].
  destruct (decode_party o) as [ q | ] eqn:Ep; [ | discriminate ].
  intros H; injection H as <-. eqb_subst.
  simpl. now rewrite (encode_decode_party o q Ep).
Qed.

(** *** Values and observations *)

Lemma decode_encode_value_observation :
  (forall v, inTable_value v = true -> decode_value (encode_value v) = Some v)
  /\ (forall o, inTable_observation o = true ->
        decode_value (encode_observation o) = Some (ObservationValue o)).
Proof.
  apply Value_Observation_ind; intros; simpl in *; split_andb;
    repeat match goal with
           | IH : ?c = true -> _, H : ?c = true |- _ => specialize (IH H)
           end;
    repeat match goal with
           | IH : decode_value _ = Some _ |- _ => rewrite IH; clear IH
           end;
    rewrite ?decode_encode_token, ?decode_encode_party, ?decode_encode_choiceId
      by assumption;
    try reflexivity; try discriminate.
  (* the time-interval values *)
  match goal with H : (_ || _)%bool = true |- _ => apply orb_true_iff in H; destruct H end;
    eqb_subst; reflexivity.
Qed.

End CodecFacts.

(* ================================================================== *)
(** * Part V: further properties of the scanner and of the JSON form *)
(* ================================================================== *)

Module GrammarFacts.

Import Translator ScannerSpec ScannerFacts ScanGrammar.
Local Open Scope list_scope.
Local Open Scope Z_scope.

Section Grammar.

Variable U : rune -> RuneClass.

Lemma space_not_switch r : IsSpace U r = true -> r = 10 \/ isSwitchRune r = false.
Proof.
  intros H. destruct (isSwitchRune r) eqn:E; [ left | now right ].
  unfold isSwitchRune in E.
  repeat (apply orb_true_iff in E; destruct E as [E | E]);
    apply Z.eqb_eq in E; subst r; auto; discriminate H.
Qed.

Lemma Scan_loop_blank pos r rest :
  blank U r = true ->
  Scan_loop U pos (r :: rest) = Scan_loop U (advance pos [r]) rest.
Proof.
  unfold blank; intros H; apply orb_true_iff in H.
  destruct (Z.eqb_spec r 10) as [-> | Hn ]; [ reflexivity | ].
  destruct H as [H | H]; [ discriminate H | ].
  destruct (space_not_switch r H) as [-> | Hsw ]; [ reflexivity | ].
  destruct (not_switch r Hsw) as (E1 & E2 & E3 & E4 & E5 & E6 & E7).
  cbn [Scan_loop]. rewrite E1, E2, E3, E4, E5, E6, E7, H.
  unfold advance; simpl. now rewrite E1.
Qed.

Lemma Scan_loop_skip skipped : forall pos rest,
  Forall (fun r => blank U r = true) skipped ->
  Scan_loop U pos (skipped ++ rest) = Scan_loop U (advance pos skipped) rest.
Proof.
  induction skipped as [ | r skipped IH ]; intros pos rest H; [ reflexivity | ].
  inversion H; subst. cbn [List.app]. rewrite Scan_loop_blank by assumption.
  now rewrite IH.
Qed.

(** From the grammar to the function. *)
Lemma scanStep_Scan_loop pos input tok scan' :
  scanStep U pos input tok scan' -> Scan_loop U pos input = Some (tok, scan').
Proof.
  intros [ Hb | sk r rest ty -> Hb Hs | sk body rest -> Hb Hbody Hrest
         | sk ds rest -> Hb Hne Hds Hrest | sk w rest -> Hb Hne Hw Hrest
         | sk r rest -> Hb Hsw Hsp Hd Hl ].
  - rewrite <- (app_nil_r input) at 1. now rewrite Scan_loop_skip.
  - rewrite Scan_loop_skip by assumption.
    unfold structural in Hs. cbn [Scan_loop].
    destruct (Z.eqb_spec r 10) as [-> | _ ]; [ discriminate Hs | ].
    destruct (Z.eqb_spec r 40) as [-> | _ ]; [ now injection Hs as <- | ].
    destruct (Z.eqb_spec r 41) as [-> | _ ]; [ now injection Hs as <- | ].
    destruct (Z.eqb_spec r 91) as [-> | _ ]; [ now injection Hs as <- | ].
    destruct (Z.eqb_spec r 93) as [-> | _ ]; [ now injection Hs as <- | ].
    destruct (Z.eqb_spec r 44) as [-> | _ ]; [ now injection Hs as <- | ].
    discriminate Hs.
  - rewrite Scan_loop_skip by assumption. cbn [List.app Scan_loop].
    change (34 =? 10) with false; change (34 =? 40) with false;
      change (34 =? 41) with false; change (34 =? 91) with false;
      change (34 =? 93) with false; change (34 =? 44) with false;
      change (34 =? 34) with true; cbv iota.
    rewrite backup_afterRead, str_quote.
    assert (Hq : match rest with [] => True | c :: _ => notQuote c = false end)
      by (destruct rest; [ exact I | now subst ]).
    pose proof (span_all notQuote body rest Hbody Hq) as Hsp.
    unfold rune in Hsp. now rewrite Hsp.
  - rewrite Scan_loop_skip by assumption.
    exact (Scan_digits U (advance pos sk) None ds rest Hne Hds Hrest).
  - rewrite Scan_loop_skip by assumption.
    pose proof (Scan_letters U (advance pos sk) None w rest Hne Hw Hrest) as H.
    unfold Scan in H; cbn [position reader buf] in H.
    etransitivity; [ exact H | now destruct (isValidKeyword w) ].
  - rewrite Scan_loop_skip by assumption.
    rewrite Scan_not_switch by assumption. now rewrite Hd, Hl.
Qed.

Lemma scanStep_skip pos r rest tok scan' :
  blank U r = true ->
  scanStep U (advance pos [r]) rest tok scan' ->
  scanStep U pos (r :: rest) tok scan'.
Proof.
  intros Hr [ Hb | sk c rest' ty -> Hb Hs | sk body rest' -> Hb Hbody Hrest
            | sk ds rest' -> Hb Hne Hds Hrest | sk w rest' -> Hb Hne Hw Hrest
            | sk c rest' -> Hb Hsw Hsp Hd Hl ].
  - apply (step_eof U pos (r :: rest)). now constructor.
  - apply (step_structural U pos _ (r :: sk) c rest' ty); auto.
  - apply (step_string U pos _ (r :: sk) body rest'); auto.
  - apply (step_digits U pos _ (r :: sk) ds rest'); auto.
  - apply (step_letters U pos _ (r :: sk) w rest'); auto.
  - apply (step_other U pos _ (r :: sk) c rest'); auto.
Qed.

Lemma span_Forall_head f l :
  match snd (span f l) with [] => True | c :: _ => f c = false end.
Proof.
  induction l as [ | r l IH ]; simpl; [ exact I | ].
  destruct (f r) eqn:E; [ | exact E ].
  now destruct (span f l).
Qed.

(** From the function to the grammar: [Scan] never panics and makes one step
    of the grammar. *)
Lemma Scan_loop_scanStep input : forall pos,
  exists tok scan',
    Scan_loop U pos input = Some (tok, scan') /\ scanStep U pos input tok scan'.
Proof.
  induction input as [ | r rest IH ]; intros pos.
  - do 2 eexists; split; [ reflexivity | ]. apply (step_eof U pos []); constructor.
  - destruct (blank U r) eqn:Eb.
    { destruct (IH (advance pos [r])) as (tok & scan' & Hs & Hstep).
      exists tok, scan'; split.
      - now rewrite Scan_loop_blank.
      - now apply scanStep_skip. }
    assert (Hstep : exists tok scan', scanStep U pos (r :: rest) tok scan').
    { unfold blank in Eb; apply orb_false_iff in Eb; destruct Eb as [E10 Es].
      destruct (structural r) as [ ty | ] eqn:Est.
      { do 2 eexists. apply (step_structural U pos _ [] r rest ty); auto. }
      destruct (Z.eqb_spec r 34) as [-> | E34 ].
      { do 2 eexists.
        apply (step_string U pos _ [] (fst (span notQuote rest))
                           (snd (span notQuote rest))); auto.
        - cbn [List.app]. now rewrite span_app.
        - apply span_Forall.
        - generalize (span_Forall_head notQuote rest).
          destruct (snd (span notQuote rest)) as [ | c ? ]; [ auto | ].
          unfold notQuote; intros H; apply negb_false_iff in H.
          now apply Z.eqb_eq in H. }
      assert (Hsw : isSwitchRune r = false).
      { unfold structural in Est. unfold isSwitchRune. rewrite E10.
        destruct (r =? 40), (r =? 41), (r =? 91), (r =? 93), (r =? 44);
          try discriminate Est.
        simpl. now apply Z.eqb_neq. }
      destruct (IsDigit U r) eqn:Ed.
      { do 2 eexists.
        apply (step_digits U pos _ [] (r :: fst (span (IsDigit U) rest))
                           (snd (span (IsDigit U) rest))); auto.
        - cbn [List.app]. now rewrite span_app.
        - discriminate.
        - constructor; [ exact Ed | apply span_Forall ].
        - apply span_Forall_head. }
      destruct (IsLetter U r) eqn:El.
      { do 2 eexists.
        apply (step_letters U pos _ [] (r :: fst (span (IsLetter U) rest))
                            (snd (span (IsLetter U) rest))); auto.
        - cbn [List.app]. now rewrite span_app.
        - discriminate.
        - constructor; [ exact El | apply span_Forall ].
        - apply span_Forall_head. }
      do 2 eexists. apply (step_other U pos _ [] r rest); auto. }
    destruct Hstep as (tok & scan' & Hstep).
    exists tok, scan'; split; [ now apply scanStep_Scan_loop | exact Hstep ].
Qed.

Lemma Scan_scanStep scan tok scan' :
  Scan U scan = Some (tok, scan') <->
  scanStep U (position scan) (buf (reader scan)) tok scan'.
Proof.
  split; [ | apply scanStep_Scan_loop ].
  unfold Scan; intros H.
  destruct (Scan_loop_scanStep (buf (reader scan)) (position scan))
    as (tok0 & scan0 & Hs & Hstep).
  rewrite Hs in H; now injection H as <- <-.
Qed.

Lemma structural_not_EOF r ty : structural r = Some ty -> ty <> EOF.
Proof.
  unfold structural.
  destruct (r =? 40), (r =? 41), (r =? 91), (r =? 93), (r =? 44);
    intros H; inversion H; discriminate.
Qed.

Lemma scanStep_EOF pos input tok scan' :
  scanStep U pos input tok scan' -> Type_ tok = EOF ->
  tok = EOFToken /\ scan' = atEOF (advance pos input)
  /\ Forall (fun r => blank U r = true) input.
Proof.
  intros [ Hb | sk r rest ty -> Hb Hs | sk body rest -> Hb Hbody Hrest
         | sk ds rest -> Hb Hne Hds Hrest | sk w rest -> Hb Hne Hw Hrest
         | sk r rest -> Hb Hsw Hsp Hd Hl ]; cbn [Type_]; intros Hty;
    try discriminate Hty.
  - auto.
  - now apply structural_not_EOF in Hs.
  - destruct (integerError U rest); discriminate Hty.
  - destruct (isValidKeyword w); discriminate Hty.
Qed.

(** [str] on any input. *)
Lemma str_loop_closed input : forall s pos,
  str_loop s 0 pos input =
  Some (s ++ StrSpec.strText input,
        mkScanner (addColumn pos (List.length (StrSpec.strText input)))
                  (mkReader (StrSpec.strRest input) None)).
Proof.
  unfold StrSpec.strText, StrSpec.strRest.
  induction input as [ | r rest IH ]; intros s pos.
  - cbn. unfold atEOF. now rewrite app_nil_r, addColumn_0.
  - cbn [str_loop]. destruct (Z.eqb_spec r 34) as [-> | Hr ].
    + change ((0 + 1) mod 256 <? 2) with true; cbv iota.
      change ((0 + 1) mod 256) with 1.
      rewrite str_loop_open. cbn [span notQuote Z.eqb Pos.eqb negb fst snd List.app].
      cbn [position afterRead]. rewrite <- app_assoc, addColumn_S. reflexivity.
    + change (0 <? 2) with true; cbv iota. rewrite IH.
      assert (Hq : notQuote r = true)
        by (unfold notQuote; apply negb_true_iff; now apply Z.eqb_neq).
      rewrite (span_head notQuote r rest Hq); cbn [fst snd].
      cbn [position afterRead].
      destruct (snd (span notQuote rest)) as [ | q after ];
        cbn [List.app List.length]; now rewrite <- app_assoc, addColumn_S.
Qed.

End Grammar.

End GrammarFacts.

Import Translator ScannerSpec ScannerFacts ScanGrammar GrammarFacts.
Local Open Scope list_scope.
Local Open Scope Z_scope.

(** X1.  [Scan] is one step of the lexical grammar, and nothing else: it
    returns a token and a scanner exactly when they are related by
    [scanStep]. *)
Theorem Scan_is_the_grammar (U : rune -> RuneClass) (scan : Scanner)
  (tok : Token) (scan' : Scanner) :
  Scan U scan = Some (tok, scan') <->
  scanStep U (position scan) (buf (reader scan)) tok scan'.
Proof. apply Scan_scanStep. Qed.


(** X3.  Once [Scan] has returned [EOF], the input is exhausted and every
    later call returns the same [EOF] token and leaves the scanner as it
    is. *)
Theorem EOF_is_absorbing (U : rune -> RuneClass) (scan : Scanner)
  (tok : Token) (scan' : Scanner) :
  Scan U scan = Some (tok, scan') ->
  Type_ tok = EOF ->
  tok = EOFToken
  /\ buf (reader scan') = []
  /\ Scan U scan' = Some (EOFToken, scan').
Proof.
  intros Hs Hty. apply Scan_scanStep in Hs.
  destruct (scanStep_EOF U _ _ _ _ Hs Hty) as (-> & -> & _).
  repeat split.
Qed.

Lemma EOF_is_absorbing_witness :
  exists scan',
    Scan noTable (NewScanner (runes "  ")) = Some (EOFToken, scan')
    /\ Scan noTable scan' = Some (EOFToken, scan').
Proof.
  eexists; split; [ reflexivity | ].
  exact (proj2 (proj2 (EOF_is_absorbing noTable (NewScanner (runes "  ")) _ _
                                        eq_refl eq_refl))).
Defined.


(** X4.  [integer], [keyword] and [str] read one run and nothing more:
    [integer] returns the digits at the head of the unread input, with an
    error when a letter or a punctuation rune follows them, [keyword] the
    letters at the head, [str] the runes before the second quote; each leaves
    the scanner on the rune after the run, its column moved by the length of
    the text returned, and what is returned and what is left make up the
    input. *)
Theorem helpers_read_one_run (U : rune -> RuneClass) (scan : Scanner) :
  let p := position scan in
  let b := buf (reader scan) in
  integer U scan =
    Some (fst (span (IsDigit U) b), integerError U (snd (span (IsDigit U) b)),
          mkScanner (addColumn p (List.length (fst (span (IsDigit U) b))))
                    (mkReader (snd (span (IsDigit U) b)) None))
  /\ keyword U scan =
    Some (fst (span (IsLetter U) b),
          mkScanner (addColumn p (List.length (fst (span (IsLetter U) b))))
                    (mkReader (snd (span (IsLetter U) b)) None))
  /\ str scan =
    Some (StrSpec.strText b,
          mkScanner (addColumn p (List.length (StrSpec.strText b)))
                    (mkReader (StrSpec.strRest b) None))
  /\ StrSpec.strText b ++ StrSpec.strRest b = b
  /\ (List.length (filter (fun r => Z.eqb r 34) (StrSpec.strText b)) <= 1)%nat.
Proof.
  intros p b. split; [ | split; [ | split; [ | split ] ] ].
  - unfold integer; now rewrite integer_loop_span.
  - unfold keyword; now rewrite keyword_loop_span.
  - unfold str; now rewrite str_loop_closed.
  - unfold StrSpec.strText, StrSpec.strRest.
    generalize (span_app notQuote b).
    destruct (span notQuote b) as [a r1]; cbn [fst snd]; intros <-.
    destruct r1 as [ | q after ]; [ reflexivity | ].
    rewrite <- app_assoc; cbn [List.app].
    now rewrite (span_app notQuote after).
  - assert (Hnq : forall l, Forall (fun r => notQuote r = true) l ->
                            filter (fun r => Z.eqb r 34) l = []).
    { induction 1 as [ | x l Hx _ IH ]; [ reflexivity | ].
      cbn [filter]. unfold notQuote in Hx; apply negb_true_iff in Hx.
      now rewrite Hx. }
    unfold StrSpec.strText.
    destruct (snd (span notQuote b)) as [ | q after ].
    + rewrite Hnq by apply span_Forall. simpl; lia.
    + rewrite filter_app, Hnq by apply span_Forall. cbn [filter List.app].
      rewrite Hnq by apply span_Forall. destruct (q =? 34); simpl; lia.
Qed.

Module PassFacts.

Section Pass.

Variable U : rune -> RuneClass.

Lemma scanned_EOFToken pos input tok scan' skipped :
  scanned U pos input tok scan' skipped -> Type_ tok = EOF ->
  tok = EOFToken /\ input = skipped.
Proof.
  intros (Hin & _ & _ & He & _) Hty. destruct (He Hty) as (Hv & Hb & Hp).
  split.
  - destruct tok as [ty v p]; cbn in *; subst; reflexivity.
  - rewrite Hin, Hv, Hb. now rewrite app_nil_r.
Qed.

(** A pass, with the blanks skipped before each token. *)
Lemma scanAll_weave fuel : forall scan,
  (List.length (buf (reader scan)) < fuel)%nat ->
  exists front gaps,
    scanAll U fuel scan = Some (front ++ [EOFToken])
    /\ Forall (fun t => Type_ t <> EOF /\ Value t <> []) front
    /\ (List.length front <= List.length (buf (reader scan)))%nat
    /\ List.length gaps = S (List.length front)
    /\ Forall (Forall (fun r => blank U r = true)) gaps
    /\ buf (reader scan) = weave gaps (front ++ [EOFToken]).
Proof.
  induction fuel as [ | fuel IH ]; intros scan Hlen; [ lia | ].
  destruct (Scan_scanned U scan) as (tok & scan' & sk & Hs & Hspec).
  cbn [scanAll]; rewrite Hs.
  destruct (TokenType_eqb (Type_ tok) EOF) eqn:Ety.
  - apply TokenType_eqb_eq in Ety.
    destruct (scanned_EOFToken _ _ _ _ _ Hspec Ety) as (-> & Hin).
    destruct Hspec as (_ & Hsk & _).
    exists [], [sk]; cbn. repeat split; auto; try lia.
    now rewrite app_nil_r.
  - assert (Hty : Type_ tok <> EOF).
    { intros H; apply TokenType_eqb_eq in H; congruence. }
    assert (Hsh := scanned_shorter U _ _ _ _ _ Hspec Hty).
    destruct Hspec as (Hin & Hsk & _ & _ & Hv & _).
    destruct (IH scan') as (front & gaps & Ht & Hfront & Hn & Hg & Hb & Hw);
      [ lia | ].
    exists (tok :: front), (sk :: gaps). rewrite Ht. cbn.
    repeat split; auto; try lia.
    now rewrite Hin, Hw.
Qed.

(** A property of every token that [Scan] returns holds of every token of a
    pass. *)
Lemma scanAll_Forall (P : Token -> Prop) :
  (forall scan tok scan', Scan U scan = Some (tok, scan') -> P tok) ->
  forall fuel scan toks, scanAll U fuel scan = Some toks -> Forall P toks.
Proof.
  intros HP; induction fuel as [ | fuel IH ]; intros scan toks; [ discriminate | ].
  cbn [scanAll]. destruct (Scan U scan) as [ [tok scan'] | ] eqn:Hs; [ | discriminate ].
  destruct (TokenType_eqb (Type_ tok) EOF).
  - intros H; injection H as <-. constructor; [ eapply HP; eauto | constructor ].
  - destruct (scanAll U fuel scan') as [ toks' | ] eqn:Ht; [ | discriminate ].
    intros H; injection H as <-. constructor; [ eapply HP; eauto | eapply IH; eauto ].
Qed.

End Pass.

End PassFacts.

(** X5.  A pass over any input ends without a panic within one call more
    than the input has runes: it returns at most one token for each rune,
    none of them [EOF] and none with an empty value, and then the [EOF]
    token. *)
Theorem pass_ends_with_one_EOF (U : rune -> RuneClass) (input : list rune) :
  exists front,
    testScanner U input = Some (front ++ [EOFToken])
    /\ Forall (fun t => Type_ t <> EOF /\ Value t <> []) front
    /\ (List.length front <= List.length input)%nat.
Proof.
  destruct (PassFacts.scanAll_weave U (S (List.length input)) (NewScanner input))
    as (front & gaps & Ht & Hfront & Hn & _); [ simpl; lia | ].
  exists front; auto.
Qed.

(** X6.  A pass loses no rune and makes none up: the input is, in order, the
    values of the tokens, each after the blanks (newlines and spaces) that
    were skipped before it. *)
Theorem pass_is_lossless (U : rune -> RuneClass) (input : list rune) :
  exists toks gaps,
    testScanner U input = Some toks
    /\ List.length gaps = List.length toks
    /\ Forall (Forall (fun r => blank U r = true)) gaps
    /\ input = weave gaps toks.
Proof.
  destruct (PassFacts.scanAll_weave U (S (List.length input)) (NewScanner input))
    as (front & gaps & Ht & _ & _ & Hg & Hb & Hw); [ simpl; lia | ].
  exists (front ++ [EOFToken]), gaps. repeat split; auto.
  rewrite Hg, length_app; simpl; lia.
Qed.

Lemma structural_value (r : rune) (ty : TokenType) :
  structural r = Some ty ->
  match ty with
  | PARENS_L => r = 40 | PARENS_R => r = 41 | SQUARE_L => r = 91
  | SQUARE_R => r = 93 | COMMA => r = 44 | _ => False
  end.
Proof.
  unfold structural.
  destruct (Z.eqb_spec r 40); [ intros H; now injection H as <- | ].
  destruct (Z.eqb_spec r 41); [ intros H; now injection H as <- | ].
  destruct (Z.eqb_spec r 91); [ intros H; now injection H as <- | ].
  destruct (Z.eqb_spec r 93); [ intros H; now injection H as <- | ].
  destruct (Z.eqb_spec r 44); [ intros H; now injection H as <- | ].
  discriminate.
Qed.

Lemma not_switch_structural (r : rune) :
  isSwitchRune r = false -> structural r = None /\ r <> 34 /\ r <> 10.
Proof.
  intros H; destruct (not_switch r H) as (E1 & E2 & E3 & E4 & E5 & E6 & E7).
  unfold structural; rewrite E2, E3, E4, E5, E6.
  repeat split; intros ->; discriminate.
Qed.

(** X7.  The type of a token tells the shape of its value: an [INT] is a run
    of digits, a [KEYWORD] a word of the vocabulary, a [STRING] a quote and
    then runes that are no quote, each of the five punctuation tokens its own
    rune, and an [INVALID] a run of digits, or a word of letters outside the
    vocabulary, or one rune that is no blank, digit, letter, quote or
    punctuation token.  This holds of every token that [Scan] returns, and so
    of every token of a pass. *)
Theorem tokens_are_well_formed (U : rune -> RuneClass) :
  (forall scan tok scan', Scan U scan = Some (tok, scan') -> wellFormed U tok)
  /\ (forall input toks, testScanner U input = Some toks ->
        Forall (wellFormed U) toks).
Proof.
  assert (Hcall : forall scan tok scan',
             Scan U scan = Some (tok, scan') -> wellFormed U tok).
  { intros scan tok scan' Hs. apply Scan_scanStep in Hs.
    destruct Hs as [ Hb | sk r rest ty Hin Hb Hs | sk body rest Hin Hb Hbody Hrest
                   | sk ds rest Hin Hb Hne Hds Hrest | sk w rest Hin Hb Hne Hw Hrest
                   | sk r rest Hin Hb Hsw Hsp Hd Hl ]; unfold wellFormed.
    - reflexivity.
    - apply structural_value in Hs. cbn [Type_ Value].
      destruct ty; try contradiction; now subst.
    - cbn [Type_ Value]. now exists body.
    - destruct (integerError U rest); cbn [Type_ Value]; auto.
    - destruct (isValidKeyword w) eqn:E; cbn [Type_ Value].
      + now apply isValidKeyword_In.
      + right; left. repeat split; auto.
        intros Hk; apply isValidKeyword_In in Hk; congruence.
    - cbn [Type_ Value]. right; right. exists r.
      destruct (not_switch_structural r Hsw) as (Hst & H34 & H10).
      repeat split; auto.
      unfold blank. rewrite Hsp. now apply Z.eqb_neq in H10; rewrite H10. }
  split; [ exact Hcall | ].
  intros input toks. apply PassFacts.scanAll_Forall. exact Hcall.
Qed.

Lemma tokens_are_well_formed_witness :
  wellFormed noTable (mkToken INVALID (runes "12") (mkPosition 1 2)).
Proof.
  exact (proj1 (tokens_are_well_formed noTable)
               (NewScanner (runes "12a")) _ _ eq_refl).
Defined.

(** X8.  Tokens are as long as they can be.  After an [INT] token the unread
    input is empty or starts with a rune that is no digit, letter or
    punctuation; after a [KEYWORD] token it starts with no letter; after a
    [STRING] token it is empty or starts with the quote that ended the
    string; after an [INVALID] run of digits it starts with a letter or a
    punctuation rune. *)
Theorem tokens_are_maximal (U : rune -> RuneClass) (scan : Scanner)
  (tok : Token) (scan' : Scanner) :
  Scan U scan = Some (tok, scan') ->
  match Type_ tok, buf (reader scan') with
  | INT, c :: _ => IsDigit U c = false /\ IsLetter U c = false /\ IsPunct U c = false
  | KEYWORD, c :: _ => IsLetter U c = false
  | STRING, c :: _ => c = 34
  | INVALID, c :: _ =>
      match Value tok with
      | d :: _ => IsDigit U d = true -> IsLetter U c || IsPunct U c = true
      | [] => True
      end
  | INVALID, [] =>
      match Value tok with
      | d :: _ => IsDigit U d = false
      | [] => True
      end
  | _, _ => True
  end.
Proof.
  intros Hs. apply Scan_scanStep in Hs.
  destruct Hs as [ Hb | sk r rest ty Hin Hb Hs | sk body rest Hin Hb Hbody Hrest
                 | sk ds rest Hin Hb Hne Hds Hrest | sk w rest Hin Hb Hne Hw Hrest
                 | sk r rest Hin Hb Hsw Hsp Hd Hl ].
  - exact I.
  - apply structural_value in Hs. cbn [Type_ Value afterRead reader buf].
    destruct ty; try contradiction; destruct rest; exact I.
  - cbn [Type_ reader buf]. destruct rest; [ exact I | exact Hrest ].
  - cbn [reader buf]. destruct rest as [ | c rest ].
    + cbn [integerError Type_ Value]. exact I.
    + cbn [integerError]. destruct (IsLetter U c || IsPunct U c) eqn:E;
        cbn [Type_ Value].
      * destruct ds; [ exact I | auto ].
      * apply orb_false_iff in E. tauto.
  - cbn [reader buf].
    destruct (isValidKeyword w); cbn [Type_ Value];
      destruct rest as [ | c rest ]; auto.
    + destruct w as [ | l w ]; [ exact I | ].
      inversion Hw; subst. now destruct (letter_class U l H1).
    + destruct w as [ | l w ]; [ exact I | ].
      inversion Hw; subst. destruct (letter_class U l H1) as (Hd & _).
      intros; congruence.
  - cbn [Type_ Value afterRead reader buf].
    destruct rest; [ exact Hd | intros; congruence ].
Qed.

Lemma tokens_are_maximal_witness :
  IsDigit noTable 32 = false /\ IsLetter noTable 32 = false
  /\ IsPunct noTable 32 = false.
Proof.
  exact (tokens_are_maximal noTable (NewScanner (runes "12 3")) _ _ eq_refl).
Defined.

(** X9.  A number that touches a parenthesis, a square bracket, a comma or a
    quote is not an [INT]: these runes are punctuation, so a run of digits
    right before one of them is returned as [INVALID], with the rune left
    unread. *)
Theorem number_before_punctuation_token_is_invalid (U : rune -> RuneClass)
  (ds : list rune) (c : rune) (rest : list rune) (pos : Position)
  (lr : option rune) :
  ds <> [] ->
  Forall (fun r => IsDigit U r = true) ds ->
  In c [40; 41; 91; 93; 44; 34] ->
  Scan U (mkScanner pos (mkReader (ds ++ c :: rest) lr)) =
  Some (mkToken INVALID ds (addColumn pos (List.length ds)),
        mkScanner (addColumn pos (List.length ds)) (mkReader (c :: rest) None)).
Proof.
  intros Hne Hds Hc.
  assert (Hclass : IsDigit U c = false /\ IsPunct U c = true).
  { cbn [In] in Hc.
    repeat (destruct Hc as [ <- | Hc ]; [ split; reflexivity | ]).
    contradiction. }
  destruct Hclass as (Hd & Hp).
  rewrite Scan_digits; auto.
  cbn [integerError]. now rewrite Hp, orb_true_r.
Qed.

Lemma number_before_punctuation_token_is_invalid_witness :
  testScanner noTable (runes "(Constant 5)") =
  Some [ mkToken PARENS_L (runes "(") (mkPosition 1 1);
         mkToken KEYWORD (runes "Constant") (mkPosition 1 9);
         mkToken INVALID (runes "5") (mkPosition 1 11);
         mkToken PARENS_R (runes ")") (mkPosition 1 12);
         EOFToken ]
  /\ Scan noTable (mkScanner (mkPosition 1 10) (mkReader (runes "5)") None)) =
     Some (mkToken INVALID (runes "5") (mkPosition 1 11),
           mkScanner (mkPosition 1 11) (mkReader (runes ")") None)).
Proof.
  split; [ reflexivity | ].
  apply (number_before_punctuation_token_is_invalid
           noTable (runes "5") 41 [] (mkPosition 1 10) None).
  - discriminate.
  - repeat constructor.
  - simpl; tauto.
Defined.

Module PositionFacts.

Lemma advance_cons (p : Position) (r : rune) (l : list rune) :
  advance p (r :: l) =
  advance (if r =? 10 then resetPosition (incColumn p) else incColumn p) l.
Proof. reflexivity. Qed.

Lemma advance_line (l : list rune) : forall p,
  Line (advance p l) = Line p + Z.of_nat (count_occ Z.eq_dec l 10).
Proof.
  induction l as [ | r l IH ]; intros p; [ simpl; lia | ].
  rewrite advance_cons, IH. cbn [count_occ].
  destruct (Z.eqb_spec r 10) as [-> | Hr ].
  - destruct (Z.eq_dec 10 10); [ | contradiction ]. simpl Line. lia.
  - destruct (Z.eq_dec r 10); [ contradiction | ]. simpl Line. lia.
Qed.

Lemma advance_column (l : list rune) : forall p,
  0 <= Column p -> 0 <= Column (advance p l).
Proof.
  induction l as [ | r l IH ]; intros p Hp; [ exact Hp | ].
  rewrite advance_cons. apply IH. destruct (r =? 10); simpl; lia.
Qed.

End PositionFacts.

(** X10.  Every scanner that a caller can hold, the new one or one returned
    by a call, is at a line from 1 on and at a column from 0 on, and its
    unread input is an end of the input it was made for; a token that carries
    the position of the scanner is at a column from 1 on. *)
Theorem reachable_scanner_invariant (U : rune -> RuneClass) (input : list rune)
  (scan : Scanner) :
  reachable U input scan ->
  1 <= Line (position scan) /\ 0 <= Column (position scan)
  /\ (exists consumed, input = consumed ++ buf (reader scan))
  /\ (forall tok scan', Scan U scan = Some (tok, scan') ->
        hasPosition U tok = true ->
        1 <= Line (Position_ tok) /\ 1 <= Column (Position_ tok)).
Proof.
  intros Hr.
  assert (Hinv : 1 <= Line (position scan) /\ 0 <= Column (position scan)
                 /\ exists consumed, input = consumed ++ buf (reader scan)).
  { induction Hr as [ | scan tok scan' _ (Hl & Hc & consumed & Hin) Hs ].
    - cbn. repeat split; try lia. now exists [].
    - destruct (Scan_scanned U scan) as (tok0 & scan0 & sk & Hs0 & Hspec).
      rewrite Hs in Hs0; injection Hs0 as <- <-.
      destruct Hspec as (Hb & _ & Hp & _). rewrite Hp. unfold addColumn.
      cbn [Line Column]. rewrite PositionFacts.advance_line.
      pose proof (PositionFacts.advance_column sk (position scan) Hc).
      repeat split; try lia.
      exists (consumed ++ sk ++ Value tok). rewrite Hin, Hb.
      now rewrite <- !app_assoc. }
  destruct Hinv as (Hl & Hc & Hcons). repeat split; auto.
  - destruct (Scan_scanned U scan) as (tok0 & scan0 & sk & Hs0 & Hspec).
    rewrite H in Hs0; injection Hs0 as <- <-.
    destruct Hspec as (_ & _ & Hp & _ & _ & Hhp & _).
    rewrite (Hhp H0), Hp. unfold addColumn; cbn [Line].
    rewrite PositionFacts.advance_line. lia.
  - destruct (Scan_scanned U scan) as (tok0 & scan0 & sk & Hs0 & Hspec).
    rewrite H in Hs0; injection Hs0 as <- <-.
    destruct Hspec as (_ & _ & Hp & _ & Hv & Hhp & _).
    rewrite (Hhp H0), Hp. unfold addColumn; cbn [Column].
    pose proof (PositionFacts.advance_column sk (position scan) Hc).
    assert (Hty : Type_ tok <> EOF).
    { intros E. unfold hasPosition in H0. rewrite E in H0. discriminate H0. }
    specialize (Hv Hty). destruct (Value tok); [ congruence | simpl; lia ].
Qed.

Lemma reachable_scanner_invariant_witness :
  exists scan,
    reachable noTable (runes "( Let") scan
    /\ 1 <= Line (position scan) /\ 0 <= Column (position scan).
Proof.
  assert (Hr : reachable noTable (runes "( Let")
                 (mkScanner (mkPosition 1 1) (mkReader (runes " Let") (Some 40)))).
  { eapply reach_scan; [ apply reach_new | reflexivity ]. }
  eexists; split; [ exact Hr | ].
  destruct (reachable_scanner_invariant noTable _ _ Hr) as (Hl & Hc & _).
  split; [ exact Hl | exact Hc ].
Defined.

(** X11.  Lines are counted between tokens only: a call of [Scan] adds to
    the line of the scanner the number of newlines among the blanks that it
    skips, whatever the value of the token holds, so a newline inside a
    string does not start a line. *)
Theorem line_counts_skipped_newlines (U : rune -> RuneClass) (scan : Scanner)
  (tok : Token) (scan' : Scanner) :
  Scan U scan = Some (tok, scan') ->
  exists skipped,
    buf (reader scan) = skipped ++ Value tok ++ buf (reader scan')
    /\ Forall (fun r => blank U r = true) skipped
    /\ Line (position scan') =
       Line (position scan) + Z.of_nat (count_occ Z.eq_dec skipped 10).
Proof.
  intros Hs.
  destruct (Scan_scanned U scan) as (tok0 & scan0 & sk & Hs0 & Hspec).
  rewrite Hs in Hs0; injection Hs0 as <- <-.
  destruct Hspec as (Hb & Hsk & Hp & _).
  exists sk; repeat split; auto.
  rewrite Hp. unfold addColumn; cbn [Line].
  apply PositionFacts.advance_line.
Qed.

Lemma line_counts_skipped_newlines_witness :
  exists skipped,
    10 :: 34 :: 97 :: 10 :: 98 :: [34] = skipped ++ (34 :: 97 :: 10 :: [98]) ++ [34]
    /\ Forall (fun r => blank noTable r = true) skipped
    /\ 2 = 1 + Z.of_nat (count_occ Z.eq_dec skipped 10).
Proof.
  exact (line_counts_skipped_newlines noTable
           (NewScanner (10 :: 34 :: 97 :: 10 :: 98 :: [34]))
           (mkToken STRING (34 :: 97 :: 10 :: [98]) (mkPosition 2 4))
           (mkScanner (mkPosition 2 4) (mkReader [34] None))
           eq_refl).
Defined.

(** X17.  The table [tokens] and [Scan] agree: the name that [String] gives
    to the type of a punctuation token is the value that [Scan] gives to the
    token, and no two types have the same name. *)
Theorem token_names_match_values (U : rune -> RuneClass) :
  (forall scan tok scan',
      Scan U scan = Some (tok, scan') ->
      In (Type_ tok) [PARENS_L; PARENS_R; SQUARE_L; SQUARE_R; COMMA] ->
      Value tok = runes (TokenType_String (Type_ tok)))
  /\ (forall a b, TokenType_String a = TokenType_String b -> a = b).
Proof.
  split.
  - intros scan tok scan' Hs Hin.
    pose proof (proj1 (Scan_scanStep U scan tok scan') Hs) as Hstep.
    destruct Hstep as [ Hb | sk r rest ty Hi Hb Hst | sk body rest Hi Hb Hbody Hrest
                      | sk ds rest Hi Hb Hne Hds Hrest | sk w rest Hi Hb Hne Hw Hrest
                      | sk r rest Hi Hb Hsw Hsp Hd Hl ];
      cbn [Type_ Value] in *.
    + cbn [In] in Hin; intuition discriminate.
    + apply structural_value in Hst.
      destruct ty; try contradiction; subst r; reflexivity.
    + cbn [In] in Hin; intuition discriminate.
    + destruct (integerError U rest); cbn [Type_ In] in Hin; intuition discriminate.
    + destruct (isValidKeyword w); cbn [Type_ In] in Hin; intuition discriminate.
    + cbn [In] in Hin; intuition discriminate.
  - intros a b; destruct a, b; intros H; try reflexivity; discriminate H.
Qed.

Lemma token_names_match_values_witness :
  Value (mkToken SQUARE_L [91] (mkPosition 1 1)) = runes (TokenType_String SQUARE_L).
Proof.
  apply (proj1 (token_names_match_values noTable)
               (NewScanner (runes "[")) _ (afterRead (mkPosition 1 0) 91 []) eq_refl).
  simpl; tauto.
Defined.

(* ------------------------------------------------------------------ *)
(** ** The JSON form *)

Module EncodeFacts.

Import Json Language JsonSpec.
Local Open Scope string_scope.
Local Open Scope list_scope.

Scheme Value_rec2 := Induction for Value Sort Prop
  with Observation_rec2 := Induction for Observation Sort Prop.
Combined Scheme Value_Observation_mutind from Value_rec2, Observation_rec2.

(** Induction on a contract, with the hypothesis for the cases of a [When]. *)
Lemma Contract_nested_ind (P : Contract -> Prop) (Q : Case -> Prop) :
  (forall s, P (CloseContract s)) ->
  (forall a p t v k, P k -> P (Pay a p t v k)) ->
  (forall o x y, P x -> P y -> P (If o x y)) ->
  (forall cs t k, Forall Q cs -> P k -> P (When cs t k)) ->
  (forall n v k, P k -> P (Let n v k)) ->
  (forall o k, P k -> P (Assert o k)) ->
  (forall a k, P k -> Q (mkCase a k)) ->
  forall c, P c.
Proof.
  intros Hclose Hpay Hif Hwhen Hlet Hassert Hcase.
  fix IH 1. intros [ s | a p t v k | o x y | cs t k | n v k | o k ].
  - apply Hclose.
  - apply Hpay, IH.
  - apply Hif; apply IH.
  - apply Hwhen; [ | apply IH ].
    induction cs as [ | [a k'] cs IHcs ]; constructor.
    + apply Hcase, IH.
    + exact IHcs.
  - apply Hlet, IH.
  - apply Hassert, IH.
Qed.

Lemma encode_party_inj p p' : encode_party p = encode_party p' -> p = p'.
Proof. destruct p, p'; simpl; intros H; try discriminate H; now injection H as ->. Qed.

Lemma encode_token_inj t t' : encode_token t = encode_token t' -> t = t'.
Proof. destruct t, t'; simpl; intros H; now injection H as -> ->. Qed.

Lemma encode_payee_inj p p' : encode_payee p = encode_payee p' -> p = p'.
Proof.
  destruct p, p'; simpl; intros H; injection H as H.
  now rewrite (encode_party_inj _ _ H).
Qed.

Lemma encode_choiceId_inj c c' : encode_choiceId c = encode_choiceId c' -> c = c'.
Proof.
  destruct c, c'; simpl; intros H; injection H as -> H.
  now rewrite (encode_party_inj _ _ H).
Qed.

Lemma encode_bound_inj b b' : encode_bound b = encode_bound b' -> b = b'.
Proof. destruct b, b'; simpl; intros H; now injection H as -> ->. Qed.

Lemma map_inj_Forall {A B : Type} (f : A -> B) (l : list A) :
  Forall (fun x => forall x', f x = f x' -> x = x') l ->
  forall l', map f l = map f l' -> l = l'.
Proof.
  induction 1 as [ | x l Hx _ IH ]; intros [ | x' l' ] H; try discriminate H.
  - reflexivity.
  - cbn [map] in H. injection H as H1 H2. f_equal; auto.
Qed.

Create HintDb enc.
#[local] Hint Resolve encode_party_inj encode_token_inj encode_payee_inj
  encode_choiceId_inj encode_bound_inj : enc.

Ltac inj_step H :=
  simpl in H; try discriminate H; injection H; clear H; intros; subst;
  f_equal; eauto with enc.

Lemma encode_value_observation_inj :
  (forall v v', encode_value v = encode_value v' -> v = v')
  /\ (forall o,
        (forall o', encode_observation o = encode_observation o' -> o = o')
        /\ (forall v', encode_observation o = encode_value v' ->
                       v' = ObservationValue o)).
Proof.
  apply Value_Observation_mutind.
  (* values *)
  1-11: intros; match goal with
        | H : _ = encode_value ?v' |- _ =>
            destruct v' as [ | | | | | | | | | | | o' ];
            try (inj_step H; fail);
            destruct o'; simpl in H; discriminate H
        end.
  (* an observation in the place of a value *)
  1: { intros o [_ IH] v' H. symmetry. apply IH. exact H. }
  (* observations *)
  all: intros; split;
    [ intros o' Heq; destruct o'; inj_step Heq;
      repeat match goal with
             | IH : (forall o', _ -> ?a = o') /\ _ , E : encode_observation ?a = _ |- _ =>
                 apply (proj1 IH) in E; subst
             end; reflexivity
    | intros v' Heq; destruct v' as [ | | | | | | | | | | | o' ];
      simpl in Heq; try discriminate Heq;
      f_equal; symmetry;
      destruct o'; inj_step Heq;
      repeat match goal with
             | IH : (forall o', _ -> ?a = o') /\ _ , E : encode_observation ?a = _ |- _ =>
                 apply (proj1 IH) in E; subst
             end; reflexivity ].
Qed.

Lemma encode_value_inj v v' : encode_value v = encode_value v' -> v = v'.
Proof. apply encode_value_observation_inj. Qed.

Lemma encode_observation_inj o o' :
  encode_observation o = encode_observation o' -> o = o'.
Proof. apply (proj2 encode_value_observation_inj). Qed.

#[local] Hint Resolve encode_value_inj encode_observation_inj : enc.

Lemma encode_action_inj a a' : encode_action a = encode_action a' -> a = a'.
Proof.
  destruct a, a'; simpl; intros H; try discriminate H.
  - injection H; clear H; intros; f_equal; eauto with enc.
  - injection H; clear H; intros Hb Hc; f_equal; eauto with enc.
    apply (map_inj_Forall encode_bound); [ | exact Hb ].
    apply Forall_forall; intros b _ b'; apply encode_bound_inj.
  - injection H; clear H; intros; f_equal; eauto with enc.
Qed.

#[local] Hint Resolve encode_action_inj : enc.

Lemma encode_contract_inj c : forall c', encode_contract c = encode_contract c' -> c = c'.
Proof.
  induction c using Contract_nested_ind
    with (Q := fun x => forall x', encode_case x = encode_case x' -> x = x');
    try (intros c' H; destruct c'; simpl in H; try discriminate H;
         injection H; clear H; intros; subst; f_equal; eauto with enc; fail).
  (* When *)
  intros c' Heq; destruct c'; simpl in Heq; try discriminate Heq.
  injection Heq; clear Heq; intros Hk Ht Hcs; subst. f_equal; eauto.
  now apply (map_inj_Forall encode_case).
Qed.

Lemma encode_case_inj x x' : encode_case x = encode_case x' -> x = x'.
Proof.
  destruct x as [a k], x' as [a' k']; simpl; intros H.
  injection H; clear H; intros Hk Ha.
  f_equal; [ now apply encode_action_inj | now apply encode_contract_inj ].
Qed.

(** *** No object has a key twice *)

Lemma keysDistinct_party p : keysDistinct (encode_party p) = true.
Proof. now destruct p. Qed.

Lemma keysDistinct_token t : keysDistinct (encode_token t) = true.
Proof. now destruct t. Qed.

Lemma keysDistinct_choiceId c : keysDistinct (encode_choiceId c) = true.
Proof. destruct c; simpl. now rewrite keysDistinct_party. Qed.

Lemma keysDistinct_payee p : keysDistinct (encode_payee p) = true.
Proof. destruct p; simpl. now rewrite keysDistinct_party. Qed.

Lemma keysDistinct_bounds bs :
  forallb keysDistinct (map encode_bound bs) = true.
Proof. induction bs as [ | [u l] bs IH ]; [ reflexivity | exact IH ]. Qed.

Lemma keysDistinct_value_observation :
  (forall v, keysDistinct (encode_value v) = true)
  /\ (forall o, keysDistinct (encode_observation o) = true).
Proof.
  apply Value_Observation_mutind; intros; simpl;
    rewrite ?keysDistinct_party, ?keysDistinct_token, ?keysDistinct_choiceId;
    repeat match goal with H : keysDistinct _ = true |- _ => rewrite H; clear H end;
    reflexivity.
Qed.

Lemma keysDistinct_action a : keysDistinct (encode_action a) = true.
Proof.
  destruct keysDistinct_value_observation as (Hv & Ho).
  destruct a; simpl;
    rewrite ?keysDistinct_party, ?keysDistinct_token, ?keysDistinct_choiceId,
      ?Hv, ?Ho, ?keysDistinct_bounds; reflexivity.
Qed.

Lemma keysDistinct_contract c : keysDistinct (encode_contract c) = true.
Proof.
  destruct keysDistinct_value_observation as (Hv & Ho).
  induction c using Contract_nested_ind
    with (Q := fun x => keysDistinct (encode_case x) = true); simpl;
    rewrite ?keysDistinct_party, ?keysDistinct_token, ?keysDistinct_payee,
      ?keysDistinct_action, ?Hv, ?Ho;
    repeat match goal with H : keysDistinct _ = true |- _ => rewrite H; clear H end;
    try reflexivity.
  (* When *)
  rewrite andb_true_r.
  induction H as [ | x cs Hx _ IH ]; [ reflexivity | ].
  cbn [map forallb]. now rewrite Hx, IH.
Qed.

End EncodeFacts.

Module NumeralFacts.

Import Json Language JsonSpec.
Local Open Scope string_scope.

Lemma isDigitChar_cases a :
  isDigitChar a = true ->
  forall d, exists d', uint_of_char a (Some d) = Some d'.
Proof.
  destruct a as [[|] [|] [|] [|] [|] [|] [|] [|]];
    intros H; try discriminate H; intros d; eexists; reflexivity.
Qed.

Lemma uint_of_char_digit a r d :
  uint_of_char a r = Some d -> isDigitChar a = true /\ exists d0, r = Some d0.
Proof.
  destruct r as [ d0 | ]; [ | discriminate ].
  intros H; split; [ | now exists d0 ].
  apply uint_of_char_spec in H.
  repeat (destruct H as [ (-> & _) | H ]; [ reflexivity | ]).
  destruct H as (-> & _); reflexivity.
Qed.

Lemma uint_of_string_allDigits s :
  allDigits s = true <-> exists d, NilEmpty.uint_of_string s = Some d.
Proof.
  induction s as [ | a s IH ]; cbn [allDigits NilEmpty.uint_of_string].
  - split; [ now exists Nil | reflexivity ].
  - rewrite andb_true_iff, IH; split.
    + intros (Ha & d & Hd). rewrite Hd. now apply isDigitChar_cases.
    + intros (d & Hd). apply uint_of_char_digit in Hd. tauto.
Qed.

Lemma digits_None s : digits s = None <-> nonEmpty s && allDigits s = false.
Proof.
  unfold digits. destruct s as [ | a s ]; [ now split | ].
  cbn [NilZero.uint_of_string nonEmpty andb].
  destruct (allDigits (String a s)) eqn:E.
  - apply uint_of_string_allDigits in E; destruct E as (d & Hd).
    rewrite Hd. split; discriminate.
  - destruct (NilEmpty.uint_of_string (String a s)) as [ d | ] eqn:Hd;
      [ | now split ].
    assert (H : allDigits (String a s) = true)
      by (apply uint_of_string_allDigits; now exists d).
    congruence.
Qed.

Lemma SetString_unsigned_head a r :
  a <> "+"%char -> a <> "-"%char ->
  SetString (String a r) = digits (String a r)
  /\ isNumeral (String a r) = nonEmpty (String a r) && allDigits (String a r).
Proof.
  destruct a as [[|] [|] [|] [|] [|] [|] [|] [|]]; intros H1 H2;
    try (split; reflexivity); congruence.
Qed.

Lemma SetString_None s : SetString s = None <-> isNumeral s = false.
Proof.
  destruct s as [ | a r ]; [ now split | ].
  destruct (Ascii.eqb_spec a "+"%char) as [-> | Hp ].
  { cbn [SetString isNumeral]. apply digits_None. }
  destruct (Ascii.eqb_spec a "-"%char) as [-> | Hm ].
  { cbn [SetString isNumeral]. rewrite <- digits_None.
    destruct (digits r); split; discriminate || reflexivity. }
  destruct (SetString_unsigned_head a r Hp Hm) as (-> & ->).
  apply digits_None.
Qed.

Lemma of_uint_D0 d : Z.of_uint (D0 d) = Z.of_uint d.
Proof. reflexivity. Qed.

End NumeralFacts.

Import Json Language JsonSpec.



(** X13.  No object of the document of a contract has the same key twice,
    at any depth. *)
Theorem document_keys_are_distinct :
  (forall c, keysDistinct (encode_contract c) = true)
  /\ (forall a, keysDistinct (encode_action a) = true)
  /\ (forall v, keysDistinct (encode_value v) = true)
  /\ (forall o, keysDistinct (encode_observation o) = true).
Proof.
  repeat split.
  - apply EncodeFacts.keysDistinct_contract.
  - apply EncodeFacts.keysDistinct_action.
  - apply EncodeFacts.keysDistinct_value_observation.
  - apply EncodeFacts.keysDistinct_value_observation.
Qed.

(** X14.  [SetConstant] panics exactly on the strings that are not a base-10
    numeral, one or more digits after an optional sign; it reads back every
    constant from the bytes that [Constant.MarshalJSON] writes for it. *)
Theorem SetConstant_panics_on_non_numerals :
  (forall s, SetConstant s = None <-> isNumeral s = false)
  /\ (forall i, SetConstant (Constant_MarshalJSON i) = Some (Constant i)).
Proof.
  split.
  - intros s. rewrite <- NumeralFacts.SetString_None.
    unfold SetConstant. destruct (SetString s); split; discriminate || reflexivity.
  - intros i. unfold SetConstant, Constant_MarshalJSON.
    now rewrite JsonFacts.SetString_decimal.
Qed.

Lemma SetConstant_panics_on_non_numerals_witness :
  isNumeral "1_000" = false /\ SetConstant "1_000" = None.
Proof.
  split; [ reflexivity | ].
  apply (proj1 SetConstant_panics_on_non_numerals). reflexivity.
Defined.

(** X15.  [SetConstant] reads the same constant from a numeral with or
    without a plus sign or zeros in front: it is the negation of the constant
    of the digits after a minus sign, and a zero or a plus sign put before
    the digits changes nothing. *)
Theorem SetConstant_ignores_plus_and_leading_zeros (s : string) (i : Z) :
  allDigits s = true ->
  SetConstant s = Some (Constant i) ->
  SetConstant (String "0" s) = Some (Constant i)
  /\ SetConstant (String "+" s) = Some (Constant i)
  /\ SetConstant (String "-" s) = Some (Constant (- i))
  /\ 0 <= i.
Proof.
  intros Hd Hs.
  destruct s as [ | a r ]; [ discriminate Hs | ].
  assert (Ha : isDigitChar a = true)
    by (cbn [allDigits] in Hd; now apply andb_true_iff in Hd).
  assert (Hp : a <> "+"%char) by (intros ->; discriminate Ha).
  assert (Hm : a <> "-"%char) by (intros ->; discriminate Ha).
  unfold SetConstant in *.
  destruct (NumeralFacts.SetString_unsigned_head a r Hp Hm) as (Hu & _).
  rewrite Hu in Hs.
  destruct (digits (String a r)) as [ z | ] eqn:Hz; [ | discriminate Hs ].
  injection Hs as ->.
  assert (H0 : digits (String "0" (String a r)) = Some i).
  { unfold digits in *.
    cbn [NilZero.uint_of_string NilEmpty.uint_of_string] in *.
    destruct (uint_of_char a (NilEmpty.uint_of_string r)) as [ d | ];
      [ | discriminate Hz ].
    cbn [uint_of_char option_map] in *. now rewrite NumeralFacts.of_uint_D0. }
  repeat split.
  - change (SetString (String "0" (String a r)))
      with (digits (String "0" (String a r))). now rewrite H0.
  - cbn [SetString]. now rewrite Hz.
  - cbn [SetString]. now rewrite Hz.
  - unfold digits in Hz.
    destruct (NilZero.uint_of_string (String a r)); [ | discriminate Hz ].
    injection Hz as <-. unfold Z.of_uint. apply N2Z.is_nonneg.
Qed.

Lemma SetConstant_ignores_plus_and_leading_zeros_witness :
  SetConstant "007" = Some (Constant 7) /\ SetConstant "+07" = Some (Constant 7)
  /\ SetConstant "-07" = Some (Constant (- 7)).
Proof.
  destruct (SetConstant_ignores_plus_and_leading_zeros "07" 7 eq_refl eq_refl)
    as (H0 & Hp & Hm & _).
  split; [ exact H0 | split; [ exact Hp | exact Hm ] ].
Defined.

Module CanonicalFacts.

Import NumeralSpec NumeralFacts.
Local Open Scope string_scope.

(** A normal form that is not zero does not start with a zero. *)
Lemma unorm_fixed_head d :
  unorm d = d -> d <> zero -> match d with D0 _ => False | Nil => False | _ => True end.
Proof.
  destruct d; intros Hu Hz; try exact I.
  - now apply (DecimalFacts.unorm_nonnil Nil).
  - rewrite DecimalFacts.unorm_D0 in Hu.
    destruct d as [ | d | d | d | d | d | d | d | d | d | d ];
      try (match type of Hu with
           | unorm ?x = _ =>
               pose proof (DecimalFacts.nb_digits_unorm x ltac:(discriminate)) as Hn
           end;
           rewrite Hu in Hn; cbn [nb_digits] in Hn; lia).
    now apply Hz.
Qed.

Lemma to_uint_fixed p : unorm (Pos.to_uint p) = Pos.to_uint p.
Proof.
  rewrite <- (DecimalPos.Unsigned.to_of (Pos.to_uint p)).
  now rewrite DecimalPos.Unsigned.of_to.
Qed.

Lemma string_of_uint_allDigits d : allDigits (NilEmpty.string_of_uint d) = true.
Proof. apply uint_of_string_allDigits. exists d. apply NilEmpty.usu. Qed.

Lemma noLeadingZero_to_uint p :
  noLeadingZero (NilZero.string_of_uint (Pos.to_uint p)) = true.
Proof.
  pose proof (unorm_fixed_head _ (to_uint_fixed p)
                (DecimalPos.Unsigned.to_uint_nonzero p)) as Hh.
  pose proof (string_of_uint_allDigits (Pos.to_uint p)) as Hd.
  destruct (Pos.to_uint p); try contradiction;
    cbn [NilZero.string_of_uint NilEmpty.string_of_uint noLeadingZero] in *;
    rewrite Hd; reflexivity.
Qed.

Lemma noLeadingZero_head s :
  noLeadingZero s = true ->
  exists a r, s = String a r /\ a <> "0"%char /\ isDigitChar a = true.
Proof.
  destruct s as [ | a r ]; [ discriminate | ].
  cbn [noLeadingZero allDigits]; intros H.
  apply andb_true_iff in H; destruct H as (Hz & Hd).
  apply andb_true_iff in Hd; destruct Hd as (Ha & _).
  exists a, r; repeat split; auto.
  intros ->; discriminate Hz.
Qed.

(** Digits without a zero in front are what is written for their number. *)
Lemma decimal_of_digits s z :
  noLeadingZero s = true -> Json.digits s = Some z ->
  exists p, z = Z.pos p /\ NilZero.string_of_uint (Pos.to_uint p) = s.
Proof.
  intros Hn Hz. unfold Json.digits in Hz.
  destruct (NilZero.uint_of_string s) as [ d | ] eqn:Hd; [ | discriminate Hz ].
  injection Hz as <-.
  pose proof (NilZero.sus _ _ Hd) as Hs.
  destruct (noLeadingZero_head s Hn) as (a & r & -> & Ha0 & Ha).
  assert (Hfix : unorm d = d /\ d <> zero).
  { cbn [NilZero.uint_of_string NilEmpty.uint_of_string] in Hd.
    destruct (NilEmpty.uint_of_string r) as [ d0 | ];
      [ | destruct a as [[|] [|] [|] [|] [|] [|] [|] [|]]; discriminate Hd ].
    apply uint_of_char_spec in Hd.
    destruct Hd as [ (-> & _) | Hd ]; [ congruence | ].
    repeat (destruct Hd as [ (_ & ->) | Hd ]; [ split; [ reflexivity | discriminate ] | ]).
    destruct Hd as (_ & ->); split; [ reflexivity | discriminate ]. }
  destruct Hfix as (Hu & Hnz).
  unfold Z.of_uint.
  destruct (Pos.of_uint d) as [ | p ] eqn:Hp.
  - exfalso. pose proof (DecimalPos.Unsigned.to_of d) as Hto.
    rewrite Hp, Hu in Hto. cbn in Hto. congruence.
  - exists p; split; [ reflexivity | ].
    pose proof (DecimalPos.Unsigned.to_of d) as Hto.
    rewrite Hp, Hu in Hto. cbn [N.to_uint] in Hto. now rewrite Hto.
Qed.

End CanonicalFacts.

(** X16.  Writing a constant gives back the string it was read from exactly
    when that string is the numeral that [big.Int.String] writes: [0], or
    digits that do not start with a zero, after a minus sign for a negative
    number.  What [Constant.MarshalJSON] writes is always such a numeral. *)
Theorem MarshalJSON_after_SetConstant (s : string) (i : Z) :
  SetConstant s = Some (Constant i) ->
  (Constant_MarshalJSON i = s <-> NumeralSpec.isCanonical s = true)
  /\ NumeralSpec.isCanonical (Constant_MarshalJSON i) = true.
Proof.
  intros Hs.
  assert (Hcanon : forall n, NumeralSpec.isCanonical (Constant_MarshalJSON n) = true).
  { intros [ | p | p ]; [ reflexivity | | ].
    - unfold Constant_MarshalJSON, decimal.
      cbn [Z.to_int NilZero.string_of_int].
      pose proof (CanonicalFacts.noLeadingZero_to_uint p) as Hn.
      destruct (CanonicalFacts.noLeadingZero_head _ Hn) as (a & r & Heq & Ha0 & Ha).
      rewrite Heq in *.
      destruct a as [[|] [|] [|] [|] [|] [|] [|] [|]];
        try discriminate Ha; try congruence; exact Hn.
    - unfold Constant_MarshalJSON, decimal.
      cbn [Z.to_int NilZero.string_of_int NumeralSpec.isCanonical].
      apply CanonicalFacts.noLeadingZero_to_uint. }
  split; [ | apply Hcanon ].
  split; [ intros <-; apply Hcanon | ].
  intros Hc. unfold SetConstant in Hs.
  destruct (SetString s) as [ z | ] eqn:Hz; [ | discriminate Hs ].
  injection Hs as ->.
  destruct s as [ | a r ]; [ discriminate Hc | ].
  destruct (Ascii.eqb_spec a "-"%char) as [-> | Hm ].
  { cbn [NumeralSpec.isCanonical] in Hc. cbn [SetString] in Hz.
    destruct (digits r) as [ z | ] eqn:Hd; [ | discriminate Hz ].
    injection Hz as <-.
    destruct (CanonicalFacts.decimal_of_digits r z Hc Hd) as (p & -> & Hp).
    unfold Constant_MarshalJSON, decimal.
    cbn [Z.opp Z.to_int NilZero.string_of_int]. now rewrite Hp. }
  destruct (Ascii.eqb_spec a "+"%char) as [-> | Hp ]; [ discriminate Hc | ].
  destruct (NumeralFacts.SetString_unsigned_head a r Hp Hm) as (Hu & _).
  rewrite Hu in Hz.
  destruct (string_dec (String a r) "0") as [ E | E ].
  { rewrite E in *. cbv in Hz. injection Hz as <-. reflexivity. }
  assert (Hn : NumeralSpec.noLeadingZero (String a r) = true).
  { destruct a as [[|] [|] [|] [|] [|] [|] [|] [|]]; try exact Hc; try congruence.
    destruct r; [ congruence | exact Hc ]. }
  destruct (CanonicalFacts.decimal_of_digits _ i Hn Hz) as (p & -> & Hpp).
  unfold Constant_MarshalJSON, decimal.
  cbn [Z.to_int NilZero.string_of_int]. exact Hpp.
Qed.

Lemma MarshalJSON_after_SetConstant_witness :
  (Constant_MarshalJSON 7 = "007"%string <-> NumeralSpec.isCanonical "007" = true)
  /\ Constant_MarshalJSON 7 <> "007"%string.
Proof.
  destruct (MarshalJSON_after_SetConstant "007" 7 eq_refl) as (Hiff & _).
  split; [ exact Hiff | ].
  intros H; apply Hiff in H; discriminate H.
Defined.
